(** * Queue management: the validation helpers and the queue service

    A shallow embedding of
      - [src/services/backendFunctions.js] ([validateName], [validatePhone]);
      - the partitioned queue service ([joinQueue], [getQueueStatus],
        [updateQueueStatus], [reorderQueues], [getDailyStats],
        [deleteQueueEntry], [searchQueueByPhone] and their helpers), which
        keeps its data in a realtime database under [queues/waiting],
        [queues/serving], [queues/archived] and [queues/stats].

    Conventions of the embedding.
      - A JavaScript string is a [string]; each [ascii] stands for one code
        unit below 256, so [length] is [String.length].
      - A JavaScript number that the service stores (positions, party sizes,
        timestamps, counters) is an integer and is a [Z]; quotients that are
        rounded with [Math.round] are taken in [Q], exactly.
      - A database location that holds children keyed by id is a
        [gmap string _]; a field that an object may lack is an [option].
        The children of a location are enumerated in the order of their
        keys, which are the strings that [push] generates.
      - An [async] function that reads and writes the database is a function
        from the database to the database reached and the value returned or
        the error thrown.  Reads and writes of the database themselves do not
        fail, so a [catch] that logs and throws again is left out; the one
        [catch] that swallows an error, in [updateDailyStats], is kept. *)

From Stdlib Require Import ZArith QArith Qround Ascii String.
From Stdlib Require Import Decimal DecimalString DecimalPos.
From stdpp Require Import gmap strings list sorting.

Local Open Scope string_scope.
Local Open Scope Z_scope.

(** ** JavaScript primitives used by the sources *)

Module JS.

Definition code (c : ascii) : N := N_of_ascii c.

(** White space as [String.prototype.trim] sees it, among the code units
    below 256: TAB, LF, VT, FF, CR, SPACE and NBSP. *)
Definition is_white (c : ascii) : bool :=
  let n := code c in
  ((9 <=? n) && (n <=? 13) || (n =? 32) || (n =? 160))%N.

(** [\d] of a regular expression without the unicode flag: [0-9]. *)
Definition is_digit (c : ascii) : bool :=
  let n := code c in ((48 <=? n) && (n <=? 57))%N.

Fixpoint trimStart (s : string) : string :=
  match s with
  | String c s' => if is_white c then trimStart s' else s
  | EmptyString => EmptyString
  end.

Fixpoint trimEnd (s : string) : string :=
  match s with
  | String c s' =>
      match trimEnd s' with
      | EmptyString => if is_white c then EmptyString else String c EmptyString
      | r => String c r
      end
  | EmptyString => EmptyString
  end.

(** [s.trim()] *)
Definition trim (s : string) : string := trimEnd (trimStart s).

(** A string is truthy unless it is empty. *)
Definition truthy (s : string) : bool :=
  match s with EmptyString => false | _ => true end.

(** A number is truthy unless it is zero. *)
Definition truthyZ (z : Z) : bool := negb (z =? 0)%Z.

(** [o.f || d] for a numeric field [f] that may be missing. *)
Definition or_default (d : Z) (o : option Z) : Z :=
  match o with
  | Some z => if truthyZ z then z else d
  | None => d
  end.

(** [c.toLowerCase()] on one code unit: A-Z, and the upper-case letters
    of Latin-1 (all of 192..222 but the multiplication sign 215). *)
Definition lower (c : ascii) : ascii :=
  let n := code c in
  if ((65 <=? n) && (n <=? 90) ||
      (192 <=? n) && (n <=? 222) && negb (n =? 215))%N
  then ascii_of_N (n + 32) else c.

Fixpoint toLowerCase (s : string) : string :=
  match s with
  | String c s' => String (lower c) (toLowerCase s')
  | EmptyString => EmptyString
  end.

(** [s.slice(-n)]: the last [n] code units of [s], all of [s] when it is
    shorter. *)
Definition slice_last (n : nat) (s : string) : string :=
  String.substring (String.length s - n) n s.

(** [Math.round(x)]: the nearest integer, halves going up. *)
Definition Math_round (x : Q) : Z := Qfloor (x + (1 # 2)).

(** [z || d] for a number [z]. *)
Definition orZ (z d : Z) : Z := if truthyZ z then z else d.

(** [Math.max(p, ...ps)] *)
Definition Math_max (p : Z) (ps : list Z) : Z := foldl Z.max p ps.

(** A number that may be [NaN] or an infinity. *)
Inductive number :=
  | Finite (z : Z)
  | NonFinite.

(** [Math.round(a / b)] for integers [a] and [b]: dividing by zero gives
    [NaN] or an infinity, which [Math.round] returns as it is. *)
Definition round_quotient (a b : Z) : number :=
  if (b =? 0)%Z then NonFinite
  else Finite (Math_round (inject_Z a / inject_Z b)).

(** [xs.findIndex(p)], -1 when no element satisfies [p]. *)
Fixpoint findIndex_from {A} (p : A -> bool) (i : Z) (xs : list A) : Z :=
  match xs with
  | [] => -1
  | x :: xs' => if p x then i else findIndex_from p (i + 1) xs'
  end.
Definition findIndex {A} (p : A -> bool) (xs : list A) : Z :=
  findIndex_from p 0 xs.

(** A value that is a number (an integer) or a string. *)
Inductive value :=
  | Num (z : Z)
  | Str (s : string).

(** [String(z)] for an integer [z] below 10^21 in absolute value: its
    decimal digits, after a minus sign when it is negative. *)
Definition Number_toString (z : Z) : string :=
  NilEmpty.string_of_int (Z.to_int z).

Definition ToString (v : value) : string :=
  match v with
  | Num z => Number_toString z
  | Str s => s
  end.

(** The value of [c] as a digit of the given radix, if it is one. *)
Definition digit_value (radix : Z) (c : ascii) : option Z :=
  let n := Z.of_N (code c) in
  let d :=
    if (48 <=? n) && (n <=? 57) then Some (n - 48)
    else if (97 <=? n) && (n <=? 122) then Some (n - 87)
    else if (65 <=? n) && (n <=? 90) then Some (n - 55)
    else None in
  match d with
  | Some d => if d <? radix then Some d else None
  | None => None
  end.

(** The longest prefix of [s] made of digits, as a number; [acc] is [None]
    as long as no digit has been read. *)
Fixpoint parse_digits (radix : Z) (acc : option Z) (s : string) : option Z :=
  match s with
  | String c s' =>
      match digit_value radix c with
      | Some d =>
          parse_digits radix
            (Some (match acc with Some a => a | None => 0 end * radix + d)) s'
      | None => acc
      end
  | EmptyString => acc
  end.

(** The sign that a string begins with, and what follows it. *)
Definition read_sign (s : string) : Z * string :=
  match s with
  | String c r =>
      if (c =? "-")%char then (-1, r)
      else if (c =? "+")%char then (1, r)
      else (1, s)
  | EmptyString => (1, s)
  end.

(** The radix: 16 after "0x" or "0X", which is dropped, and 10 otherwise. *)
Definition read_radix (s : string) : Z * string :=
  match s with
  | String c0 (String c r) =>
      if (c0 =? "0")%char && ((c =? "x")%char || (c =? "X")%char)
      then (16, r) else (10, s)
  | _ => (10, s)
  end.

(** [parseInt(v)] without a radix, [None] for [NaN]: leading white space is
    skipped, then a sign, then "0x" or "0X", and the digits that follow are
    read as far as they go. *)
Definition parseInt (v : value) : option Z :=
  let s := trimStart (ToString v) in
  let '(sign, s) := read_sign s in
  let '(radix, s) := read_radix s in
  match parse_digits radix None s with
  | Some n => Some (sign * n)
  | None => None
  end.

(** [isNaN(x)] and the comparisons [x < b], [x > b] of a number that may be
    [NaN]. *)
Definition isNaN (x : option Z) : bool :=
  match x with Some _ => false | None => true end.
Definition lt_number (x : option Z) (b : Z) : bool :=
  match x with Some a => a <? b | None => false end.
Definition gt_number (x : option Z) (b : Z) : bool :=
  match x with Some a => b <? a | None => false end.


End JS.

(** ** [backendFunctions.js]: validation utilities *)

Module Validation.

Record result := { valid : bool; message : string }.

Definition validateName (name : string) : result :=
  if negb (JS.truthy name) || negb (JS.truthy (JS.trim name)) then
    {| valid := false; message := "Please enter your name" |}
  else if (30 <? String.length (JS.trim name))%nat then
    {| valid := false; message := "Name must not exceed 50 characters" |}
  else
    {| valid := true; message := "Name is valid" |}.

(** The regular expression [/^\d{10}$/]: [digits n s] consumes [\d{n}] at
    the start of [s] and returns what follows. *)
Fixpoint digits (n : nat) (s : string) : option string :=
  match n with
  | O => Some s
  | S n' =>
      match s with
      | String c s' => if JS.is_digit c then digits n' s' else None
      | EmptyString => None
      end
  end.

Definition test_ten_digits (s : string) : bool :=
  match digits 10 s with
  | Some EmptyString => true
  | _ => false
  end.

Definition validatePhone (phone : string) : result :=
  if negb (JS.truthy phone) || negb (JS.truthy (JS.trim phone)) then
    {| valid := false; message := "Please enter your phone number" |}
  else if negb (String.length phone =? 10)%nat then
    {| valid := false; message := "Phone number must be exactly 10 digits" |}
  else if negb (test_ten_digits phone) then
    {| valid := false; message := "Phone number must contain only digits" |}
  else
    {| valid := true; message := "Phone number is valid" |}.

Definition validatePartySize (partySize : JS.value) : result :=
  let size := JS.parseInt partySize in
  if JS.isNaN size || JS.lt_number size 1 then
    {| valid := false; message := "Party size must be at least 1" |}
  else if JS.gt_number size 20 then
    {| valid := false; message := "Party size cannot exceed 20" |}
  else
    {| valid := true; message := "Party size is valid" |}.

Definition validateJoinQueueForm (name phone : string) (partySize : JS.value)
    : result :=
  let nameValidation := validateName name in
  if negb (valid nameValidation) then nameValidation
  else
    let phoneValidation := validatePhone phone in
    if negb (valid phoneValidation) then phoneValidation
    else
      let partySizeValidation := validatePartySize partySize in
      if negb (valid partySizeValidation) then partySizeValidation
      else {| valid := true; message := "All fields are valid" |}.


End Validation.

(** ** The queue service over the partitioned database *)

Module Queue.

(** *** The database *)

(** One child of [queues/waiting], [queues/serving] or
    [queues/archived].  [joinQueue] writes the first six fields;
    [servedAt] is added on the move to serving, and [status],
    [completedAt] and [waitTime] on the move to the archive. *)
Record Entry := {
  name : string;
  partySize : Z;
  phone : string;
  position : Z;
  createdAt : Z;
  updatedAt : Z;
  servedAt : option Z;
  status : option string;
  completedAt : option Z;
  waitTime : option Z
}.

(** One child of [queues/stats/daily] or [queues/stats/monthly]. *)
Record Stats := {
  totalServed : Z;
  totalPeople : Z;
  totalWaitTime : option Z;
  avgWaitTime : option JS.number;
  lastUpdated : option Z
}.

Record Store := {
  waiting : gmap string Entry;
  serving : gmap string Entry;
  archived : gmap string Entry;
  daily : gmap string Stats;
  monthly : gmap string Stats;
  (** [settings/config/averageServingTime] *)
  averageServingTime : option Z
}.

Definition empty_store : Store :=
  {| waiting := ∅; serving := ∅; archived := ∅; daily := ∅; monthly := ∅;
     averageServingTime := None |}.

Definition with_waiting (w : gmap string Entry) (db : Store) : Store :=
  {| waiting := w; serving := serving db; archived := archived db;
     daily := daily db; monthly := monthly db;
     averageServingTime := averageServingTime db |}.

Definition with_serving (s : gmap string Entry) (db : Store) : Store :=
  {| waiting := waiting db; serving := s; archived := archived db;
     daily := daily db; monthly := monthly db;
     averageServingTime := averageServingTime db |}.

Definition with_archived (a : gmap string Entry) (db : Store) : Store :=
  {| waiting := waiting db; serving := serving db; archived := a;
     daily := daily db; monthly := monthly db;
     averageServingTime := averageServingTime db |}.

Definition with_daily (d : gmap string Stats) (db : Store) : Store :=
  {| waiting := waiting db; serving := serving db; archived := archived db;
     daily := d; monthly := monthly db;
     averageServingTime := averageServingTime db |}.

Definition with_monthly (m : gmap string Stats) (db : Store) : Store :=
  {| waiting := waiting db; serving := serving db; archived := archived db;
     daily := daily db; monthly := m;
     averageServingTime := averageServingTime db |}.

(** What the surroundings supply during one call: the reading of the clock
    ([Date.now()], the same for all the readings of one call), the day
    [new Date().toISOString().split("T")[0]] (YYYY-MM-DD), and the key that
    [push] generates. *)
Record Env := { now : Z; today : string; pushKey : string }.

(** *** Errors and computations *)

(** The [Error]s that the service throws, one per [throw] of the source,
    and [NonFiniteNumber], which the database client throws from [update]
    when it is given [NaN] or an infinity. *)
Inductive error :=
  | FillAllFields
  | EntryNotFound
  | InvalidStatus (newStatus : string)
  | NotInWaitingOrServing
  | NotInWaitingQueue
  | EnterPhoneNumber
  | NoQueueWithPhone
  | NonFiniteNumber.

Definition error_message (e : error) : string :=
  match e with
  | FillAllFields => "Please fill in all fields correctly"
  | EntryNotFound => "Queue entry not found"
  | InvalidStatus s => "Invalid status: " +:+ s
  | NotInWaitingOrServing => "Queue entry not found in waiting or serving"
  | NotInWaitingQueue => "One or both queue entries not found in waiting queue"
  | EnterPhoneNumber => "Please enter a phone number"
  | NoQueueWithPhone => "No queue found with this phone number"
  | NonFiniteNumber => "update failed: values argument contains a non-finite number"
  end.

(** The taxonomy of failures: bad input shape, no matching entry, target
    status outside the allowed set.  [StoreError] is the database client
    refusing to write a number that is not finite. *)
Inductive error_class :=
  ValidationError | NotFoundError | InvalidTransitionError | StoreError.

Definition classify (e : error) : error_class :=
  match e with
  | FillAllFields | EnterPhoneNumber => ValidationError
  | EntryNotFound | NotInWaitingOrServing | NotInWaitingQueue
  | NoQueueWithPhone => NotFoundError
  | InvalidStatus _ => InvalidTransitionError
  | NonFiniteNumber => StoreError
  end.

Inductive outcome (A : Type) :=
  | Returns (a : A)
  | Throws (e : error).
Arguments Returns {A} a.
Arguments Throws {A} e.

(** An [async] function: from the database before the call to the database
    after it and the outcome.  A throw keeps the writes made before it. *)
Definition M (A : Type) : Type := Store -> Store * outcome A.

Definition ret {A} (a : A) : M A := fun db => (db, Returns a).
Definition throw {A} (e : error) : M A := fun db => (db, Throws e).
Definition bind {A B} (m : M A) (k : A -> M B) : M B :=
  fun db =>
    match m db with
    | (db', Returns a) => k a db'
    | (db', Throws e) => (db', Throws e)
    end.
(** [try { m } catch (error) { console.error(...) }] *)
Definition try_log (m : M unit) : M unit :=
  fun db =>
    match m db with
    | (db', Returns a) => (db', Returns a)
    | (db', Throws _) => (db', Returns tt)
    end.

Definition read {A} (f : Store -> A) : M A := fun db => (db, Returns (f db)).
Definition write (f : Store -> Store) : M unit := fun db => (f db, Returns tt).

Notation "x <- m ;; k" := (bind m (fun x => k))
  (at level 100, m at next level, right associativity).
Notation "m ;;; k" := (bind m (fun _ => k))
  (at level 100, right associativity).

(** [Object.entries(snapshot.val())]: the children in key order. *)
Definition key_le {A} (x y : string * A) : Prop := String.le x.1 y.1.

Definition entries {A} (m : gmap string A) : list (string * A) :=
  merge_sort key_le (map_to_list m).

(** [Object.values(snapshot.val())] *)
Definition values {A} (m : gmap string A) : list A := (entries m).*2.

(** [snapshot.exists()] of a location with children. *)
Definition exists_ {A} (m : gmap string A) : bool :=
  match entries m with [] => false | _ => true end.

(** *** Customer functions *)

(** The next position, from the waiting partition only. *)
Definition getNextPosition : M Z :=
  data <- read waiting ;;
  if negb (exists_ data) then ret 1
  else
    let positions := (fun q => JS.orZ (position q) 0) <$> values data in
    match positions with
    | p :: ps => ret (JS.Math_max p ps + 1)
    | [] => ret 1
    end.

(** Join the queue.  [partySize] is an integer, on which [parseInt] is the
    identity. *)
Definition joinQueue (name : string) (partySize : Z) (phone : string)
    (env : Env) : M string :=
  if negb (JS.truthy (JS.trim name)) || negb (JS.truthy (JS.trim phone))
     || (partySize <? 1)
  then throw FillAllFields
  else
    position <- getNextPosition ;;
    let child :=
      {| name := JS.trim name;
         partySize := partySize;
         phone := JS.trim phone;
         position := position;
         createdAt := now env;
         updatedAt := now env;
         servedAt := None; status := None; completedAt := None;
         waitTime := None |} in
    write (fun db => with_waiting (<[pushKey env := child]> (waiting db)) db) ;;;
    ret (pushKey env).

(** [a.position - b.position] as the comparator of a stable sort: each
    entry goes before the first entry of the sorted rest whose position is
    not smaller. *)
Fixpoint insert_by_position (x : string * Entry) (l : list (string * Entry))
    : list (string * Entry) :=
  match l with
  | [] => [x]
  | y :: l' =>
      if (position x.2 <=? position y.2)%Z then x :: y :: l'
      else y :: insert_by_position x l'
  end.

Definition sort_by_position (l : list (string * Entry))
    : list (string * Entry) :=
  foldr insert_by_position [] l.

Definition getQueuePosition (queueId : string) : M Z :=
  data <- read waiting ;;
  if negb (exists_ data) then ret 0
  else
    let waitingQueues := sort_by_position (entries data) in
    let position :=
      JS.findIndex (fun q => (q.1 =? queueId)%string) waitingQueues + 1 in
    ret (if (0 <? position)%Z then position else 0).

Definition getEstimatedWaitTime : M Z :=
  settings <- read averageServingTime ;;
  let avgServingTime := JS.or_default 5 settings in
  data <- read waiting ;;
  if exists_ data then
    let peopleAhead := Z.of_nat (length (values data)) in
    ret (peopleAhead * avgServingTime)
  else ret 0.

(** The object [{ id, ...queueData, position, estimatedWaitTime }]: [data]
    is [queueData] with its [position] replaced by the computed one. *)
Record QueueStatus := {
  id : string;
  data : Entry;
  estimatedWaitTime : Z
}.

Definition set_position (p : Z) (e : Entry) : Entry :=
  {| name := name e; partySize := partySize e; phone := phone e;
     position := p; createdAt := createdAt e; updatedAt := updatedAt e;
     servedAt := servedAt e; status := status e;
     completedAt := completedAt e; waitTime := waitTime e |}.

Definition getQueueStatus (queueId : string) : M QueueStatus :=
  inWaiting <- read (fun db => waiting db !! queueId) ;;
  docSnap <- match inWaiting with
             | Some q => ret (Some q)
             | None => read (fun db => serving db !! queueId)
             end ;;
  match docSnap with
  | None => throw EntryNotFound
  | Some queueData =>
      position <- getQueuePosition queueId ;;
      estimatedWaitTime <- getEstimatedWaitTime ;;
      ret {| id := queueId;
             data := set_position position queueData;
             estimatedWaitTime := estimatedWaitTime |}
  end.

(** *** Statistics *)

Definition getDailyStats (env : Env) : M Stats :=
  statsSnap <- read (fun db => daily db !! today env) ;;
  match statsSnap with
  | Some stats => ret stats
  | None =>
      ret {| totalServed := 0; totalPeople := 0; totalWaitTime := None;
             avgWaitTime := Some (JS.Finite 0);
             lastUpdated := Some (now env) |}
  end.

(** [update(ref, values)]: the fields of [values] replace those of the child
    at [ref], its other fields stay; the client throws, before it writes
    anything, when a number among [values] is not finite. *)
Definition merge_stats (old new : Stats) : Stats :=
  {| totalServed := totalServed new;
     totalPeople := totalPeople new;
     totalWaitTime :=
       match totalWaitTime new with Some t => Some t | None => totalWaitTime old end;
     avgWaitTime :=
       match avgWaitTime new with Some a => Some a | None => avgWaitTime old end;
     lastUpdated :=
       match lastUpdated new with Some t => Some t | None => lastUpdated old end |}.

Definition finite_stats (s : Stats) : bool :=
  match avgWaitTime s with Some JS.NonFinite => false | _ => true end.

Definition update_child (key : string) (new : Stats) (m : gmap string Stats)
    : gmap string Stats :=
  match m !! key with
  | Some old => <[key := merge_stats old new]> m
  | None => <[key := new]> m
  end.

Definition update_daily (key : string) (new : Stats) : M unit :=
  if finite_stats new
  then write (fun db => with_daily (update_child key new (daily db)) db)
  else throw NonFiniteNumber.

Definition update_monthly (key : string) (new : Stats) : M unit :=
  if finite_stats new
  then write (fun db => with_monthly (update_child key new (monthly db)) db)
  else throw NonFiniteNumber.

(** The three counters and the average, as both the daily and the monthly
    record are incremented. *)
Definition count_completed (partySize waitTime : Z) (s : Stats) : Stats :=
  let served := JS.orZ (totalServed s) 0 + 1 in
  let people := JS.orZ (totalPeople s) 0 + partySize in
  let waited := JS.or_default 0 (totalWaitTime s) + waitTime in
  {| totalServed := served;
     totalPeople := people;
     totalWaitTime := Some waited;
     avgWaitTime := Some (JS.round_quotient waited served);
     lastUpdated := lastUpdated s |}.

Definition set_lastUpdated (t : Z) (s : Stats) : Stats :=
  {| totalServed := totalServed s; totalPeople := totalPeople s;
     totalWaitTime := totalWaitTime s; avgWaitTime := avgWaitTime s;
     lastUpdated := Some t |}.

(** [today.substring(0, 7)] (YYYY-MM) *)
Definition month_of (today : string) : string := String.substring 0 7 today.

Definition updateDailyStats (status : string) (partySize waitTime : Z)
    (env : Env) : M unit :=
  try_log (
    let month := month_of (today env) in
    statsSnap <- read (fun db => daily db !! today env) ;;
    let currentStats :=
      match statsSnap with
      | Some stats => stats
      | None =>
          {| totalServed := 0; totalPeople := 0; totalWaitTime := Some 0;
             avgWaitTime := None; lastUpdated := Some (now env) |}
      end in
    (* Only count completed for stats *)
    let currentStats :=
      if (status =? "completed")%string
      then count_completed partySize waitTime currentStats
      else currentStats in
    let currentStats := set_lastUpdated (now env) currentStats in
    update_daily (today env) currentStats ;;;
    if (status =? "completed")%string then
      monthlySnap <- read (fun db => monthly db !! month) ;;
      let monthlyStats :=
        match monthlySnap with
        | Some stats => stats
        | None =>
            {| totalServed := 0; totalPeople := 0; totalWaitTime := Some 0;
               avgWaitTime := None; lastUpdated := None |}
        end in
      let monthlyStats := count_completed partySize waitTime monthlyStats in
      update_monthly month monthlyStats
    else ret tt).

(** *** Admin functions *)

Definition validStatuses : list string := ["serving"; "completed"; "skipped"].

Inductive location := InWaiting | InServing.

(** [{ ...queueData, servedAt: Date.now(), updatedAt: Date.now() }] *)
Definition served (t : Z) (e : Entry) : Entry :=
  {| name := name e; partySize := partySize e; phone := phone e;
     position := position e; createdAt := createdAt e; updatedAt := t;
     servedAt := Some t; status := status e;
     completedAt := completedAt e; waitTime := waitTime e |}.

(** [{ ...queueData, status: newStatus, completedAt: Date.now(), waitTime }] *)
Definition archive (newStatus : string) (t w : Z) (e : Entry) : Entry :=
  {| name := name e; partySize := partySize e; phone := phone e;
     position := position e; createdAt := createdAt e;
     updatedAt := updatedAt e; servedAt := servedAt e;
     status := Some newStatus; completedAt := Some t; waitTime := Some w |}.

(** The wait in minutes, 0 unless both [createdAt] and [servedAt] are there
    (and not zero). *)
Definition wait_minutes (queueData : Entry) : Z :=
  match servedAt queueData with
  | Some s =>
      if JS.truthyZ (createdAt queueData) && JS.truthyZ s
      then JS.Math_round
             (inject_Z (s - createdAt queueData) / inject_Z 1000 / inject_Z 60)
      else 0
  | None => 0
  end.

Definition updateQueueStatus (queueId newStatus : string) (env : Env)
    : M unit :=
  if negb (bool_decide (newStatus ∈ validStatuses))
  then throw (InvalidStatus newStatus)
  else
    (* First, find where the queue currently is *)
    waitingSnap <- read (fun db => waiting db !! queueId) ;;
    found <- match waitingSnap with
             | Some q => ret (Some (q, InWaiting))
             | None =>
                 servingSnap <- read (fun db => serving db !! queueId) ;;
                 match servingSnap with
                 | Some q => ret (Some (q, InServing))
                 | None => ret None
                 end
             end ;;
    match found with
    | None => throw NotInWaitingOrServing
    | Some (queueData, currentLocation) =>
        if (newStatus =? "serving")%string then
          match currentLocation with
          | InWaiting =>
              write (fun db => with_waiting (delete queueId (waiting db)) db) ;;;
              write (fun db =>
                with_serving
                  (<[queueId := served (now env) queueData]> (serving db)) db)
          | InServing => ret tt
          end
        else if (newStatus =? "completed")%string
                || (newStatus =? "skipped")%string then
          let waitTime := wait_minutes queueData in
          match currentLocation with
          | InWaiting =>
              write (fun db => with_waiting (delete queueId (waiting db)) db)
          | InServing =>
              write (fun db => with_serving (delete queueId (serving db)) db)
          end ;;;
          write (fun db =>
            with_archived
              (<[queueId := archive newStatus (now env) waitTime queueData]>
                 (archived db)) db) ;;;
          updateDailyStats newStatus (JS.orZ (partySize queueData) 1) waitTime env
        else ret tt
    end.

(** [update(ref, { position })] on a child that is there. *)
Definition update_position (key : string) (p : Z) (m : gmap string Entry)
    : gmap string Entry :=
  alter (set_position p) key m.

Definition reorderQueues (queueId1 queueId2 : string) : M unit :=
  doc1 <- read (fun db => waiting db !! queueId1) ;;
  doc2 <- read (fun db => waiting db !! queueId2) ;;
  match doc1, doc2 with
  | Some d1, Some d2 =>
      let pos1 := position d1 in
      let pos2 := position d2 in
      write (fun db => with_waiting (update_position queueId1 pos2 (waiting db)) db) ;;;
      write (fun db => with_waiting (update_position queueId2 pos1 (waiting db)) db)
  | _, _ => throw NotInWaitingQueue
  end.

(** Delete a queue entry, from waiting and also from serving. *)
Definition deleteQueueEntry (queueId : string) : M unit :=
  write (fun db => with_waiting (delete queueId (waiting db)) db) ;;;
  write (fun db => with_serving (delete queueId (serving db)) db).

(** *** Search by phone *)

Definition phone_matches (cleanSearchPhone : string) (queueData : Entry)
    : bool :=
  if negb (JS.truthy (phone queueData)) then false
  else
    let queuePhone := JS.toLowerCase (JS.trim (phone queueData)) in
    (queuePhone =? cleanSearchPhone)%string
    || (JS.slice_last 7 queuePhone =? JS.slice_last 7 cleanSearchPhone)%string.

(** The [for ... of Object.entries(data)] loop with its [return]. *)
Definition scan (cleanSearchPhone : string) (m : gmap string Entry)
    : option (string * Entry) :=
  if exists_ m
  then List.find (fun kv => phone_matches cleanSearchPhone kv.2) (entries m)
  else None.

(** [{ id, status: s, ...queueData }]: a [status] of [queueData] wins. *)
Definition with_status (s : string) (e : Entry) : Entry :=
  {| name := name e; partySize := partySize e; phone := phone e;
     position := position e; createdAt := createdAt e;
     updatedAt := updatedAt e; servedAt := servedAt e;
     status := match status e with Some s' => Some s' | None => Some s end;
     completedAt := completedAt e; waitTime := waitTime e |}.

Definition searchQueueByPhone (phone : string) : M (string * Entry) :=
  if negb (JS.truthy phone) || negb (JS.truthy (JS.trim phone))
  then throw EnterPhoneNumber
  else
    let cleanSearchPhone := JS.toLowerCase (JS.trim phone) in
    waitingSnapshot <- read waiting ;;
    match scan cleanSearchPhone waitingSnapshot with
    | Some (queueId, queueData) => ret (queueId, with_status "waiting" queueData)
    | None =>
        servingSnapshot <- read serving ;;
        match scan cleanSearchPhone servingSnapshot with
        | Some (queueId, queueData) =>
            ret (queueId, with_status "serving" queueData)
        | None => throw NoQueueWithPhone
        end
    end.

(** *** Completion history and the list of the dashboard *)

(** [(b.completedAt || 0) - (a.completedAt || 0)] as the comparator of a
    stable sort: the most recent first. *)
Fixpoint insert_by_completion (x : string * Entry) (l : list (string * Entry))
    : list (string * Entry) :=
  match l with
  | [] => [x]
  | y :: l' =>
      if (JS.or_default 0 (completedAt y.2) <=? JS.or_default 0 (completedAt x.2))%Z
      then x :: y :: l'
      else y :: insert_by_completion x l'
  end.

Definition sort_by_completion (l : list (string * Entry))
    : list (string * Entry) :=
  foldr insert_by_completion [] l.

(** [xs.slice(0, limit)]: a negative [limit] counts from the end. *)
Definition slice_to {A} (limit : Z) (xs : list A) : list A :=
  if (limit <? 0)%Z
  then take (Z.to_nat (Z.max 0 (Z.of_nat (length xs) + limit))) xs
  else take (Z.to_nat limit) xs.

(** [limit] is [None] when the argument is left out; it is 20 then. *)
Definition getCompletionHistory (limit : option Z)
    : M (list (string * Entry)) :=
  let limit := match limit with Some n => n | None => 20 end in
  data <- read archived ;;
  if negb (exists_ data) then ret []
  else ret (slice_to limit (sort_by_completion (entries data))).


End Queue.

(** ** [notificationService.js] *)

Module Notification.

Definition NOTIFICATION_THRESHOLD : Z := 2.

Record notification := {
  type : string;
  message : string;
  peopleAhead : Z
}.

(** [queueList] is [None] when the argument is null or undefined; of each
    item only the [status] is looked at. *)
Definition checkNotification (currentPosition previousPosition : Z)
    (queueList : option (list (option string))) : option notification :=
  match queueList with
  | None => None
  | Some queueList =>
      if (length queueList =? 0)%nat then None
      else
        let peopleAhead :=
          Z.of_nat
            (length (filter (fun q => q = Some "waiting") queueList)) - 1 in
        if (peopleAhead <=? NOTIFICATION_THRESHOLD) && (0 <=? peopleAhead) then
          Some {| type := "approaching";
                  message := "You're up soon! " +:+ JS.Number_toString peopleAhead
                             +:+ " people ahead of you.";
                  peopleAhead := peopleAhead |}
        else None
  end.

End Notification.

(** ** [Join.jsx]: what [handlePhoneChange] keeps of the phone typed *)

Module JoinPage.

(** [value.replace(/\D/g, "")] *)
Fixpoint numbersOnly (value : string) : string :=
  match value with
  | String c s => if JS.is_digit c then String c (numbersOnly s) else numbersOnly s
  | EmptyString => EmptyString
  end.

(** [numbersOnly.slice(0, 10)] *)
Definition limitedPhone (value : string) : string :=
  String.substring 0 10 (numbersOnly value).

End JoinPage.

(** ** What the properties are stated with *)

Module Spec.
Import JS Queue.

(** The decimal digits. *)
Definition decimal_digits : list ascii := list_ascii_of_string "0123456789".

(** [n] is one more than the greatest position in [w], and 1 when [w] has
    no entry. *)
Definition one_above_max (w : gmap string Entry) (n : Z) : Prop :=
  (w = ∅ -> n = 1) /\
  (forall k e, w !! k = Some e -> position e < n) /\
  (w <> ∅ -> exists k e, w !! k = Some e /\ n = position e + 1).

(** A call [joinQueue(name, partySize, phone)] with what the surroundings
    supply to it. *)
Record JoinCall := {
  call_name : string;
  call_partySize : Z;
  call_phone : string;
  call_env : Env
}.

(** The calls that [joinQueue] does not refuse. *)
Definition joinable (c : JoinCall) : Prop :=
  JS.trim (call_name c) <> "" /\ JS.trim (call_phone c) <> "" /\
  1 <= call_partySize c.

(** The position that a call has assigned: the one of the child found,
    right after the call, under the key it returned. *)
Definition assigned (db' : Store) (r : outcome string) : option Z :=
  match r with
  | Returns key => position <$> waiting db' !! key
  | Throws _ => None
  end.

(** Calls made one after the other, each on the database that the call
    before it has left, and the positions they assign. *)
Fixpoint join_all (calls : list JoinCall) (db : Store) : list (option Z) :=
  match calls with
  | [] => []
  | c :: calls' =>
      let '(db', r) :=
        joinQueue (call_name c) (call_partySize c) (call_phone c)
          (call_env c) db in
      assigned db' r :: join_all calls' db'
  end.

(** The calls that change the database. *)
Inductive call :=
  | Join (name : string) (partySize : Z) (phone : string)
  | Advance (queueId newStatus : string)
  | Reorder (queueId1 queueId2 : string)
  | Delete (queueId : string).

Definition run_call (c : call) (env : Env) (db : Store) : Store :=
  match c with
  | Join name partySize phone => (joinQueue name partySize phone env db).1
  | Advance queueId newStatus => (updateQueueStatus queueId newStatus env db).1
  | Reorder queueId1 queueId2 => (reorderQueues queueId1 queueId2 db).1
  | Delete queueId => (deleteQueueEntry queueId db).1
  end.

(** A database with nothing under [queues]. *)
Definition initial (settings : option Z) : Store :=
  {| waiting := ∅; serving := ∅; archived := ∅; daily := ∅; monthly := ∅;
     averageServingTime := settings |}.

(** The databases that calls of the service, made one after the other,
    lead to. *)
Inductive reachable : Store -> Prop :=
  | reachable_initial settings : reachable (initial settings)
  | reachable_call c env db : reachable db -> reachable (run_call c env db).

(** Where [updateQueueStatus] finds an entry: waiting is looked at first. *)
Definition locate (db : Store) (queueId : string) : option (Entry * location) :=
  match waiting db !! queueId with
  | Some q => Some (q, InWaiting)
  | None =>
      match serving db !! queueId with
      | Some q => Some (q, InServing)
      | None => None
      end
  end.

(** What holds of every database that the service leads to: a party has at
    least one person, a day has served no negative number of parties, and an
    archived entry carries the status it was archived with and the wait
    computed from its own timestamps. *)
Definition well_formed (db : Store) : Prop :=
  (forall k e, waiting db !! k = Some e -> 1 <= partySize e) /\
  (forall k e, serving db !! k = Some e -> 1 <= partySize e) /\
  (forall k s, daily db !! k = Some s -> 0 <= totalServed s) /\
  (forall k a, archived db !! k = Some a ->
     waitTime a = Some (wait_minutes a) /\
     (status a = Some "completed" \/ status a = Some "skipped")).

(** The wait of an entry as the archive records it: the difference of its
    two timestamps in minutes, rounded, when both are there and not zero;
    0 otherwise. *)
Definition minutes_waited (a : Entry) : Z :=
  match servedAt a with
  | Some s =>
      if decide (createdAt a <> 0 /\ s <> 0)
      then JS.Math_round (inject_Z (s - createdAt a) / inject_Z 60000)
      else 0
  | None => 0
  end.

(** [e'] is [e] but for its position. *)
Definition differ_only_in_position (e e' : Entry) : Prop :=
  name e' = name e /\ partySize e' = partySize e /\ phone e' = phone e /\
  createdAt e' = createdAt e /\ updatedAt e' = updatedAt e /\
  servedAt e' = servedAt e /\ status e' = status e /\
  completedAt e' = completedAt e /\ waitTime e' = waitTime e.

(** The order of the line: by position, and by key among entries of equal
    position. *)
Definition before (x y : string * Entry) : Prop :=
  position x.2 < position y.2 \/
  (position x.2 = position y.2 /\ String.le x.1 y.1).

(** A phone as the search compares it: trimmed and in lower case. *)
Definition normalized (s : string) : string := JS.toLowerCase (JS.trim s).

(** The stored phone of [e] answers the search term: both normalized, they
    are equal or have the same last 7 characters. *)
Definition answers (term : string) (e : Entry) : Prop :=
  normalized (phone e) = normalized term \/
  JS.slice_last 7 (normalized (phone e)) = JS.slice_last 7 (normalized term).

(** [(k, e)] is the first entry of [m], in key order, that answers. *)
Definition first_answer (term : string) (m : gmap string Entry)
    (k : string) (e : Entry) : Prop :=
  m !! k = Some e /\ answers term e /\
  forall k' e', m !! k' = Some e' -> answers term e' -> String.le k k'.

(** No entry of [m] answers. *)
Definition no_answer (term : string) (m : gmap string Entry) : Prop :=
  forall k e, m !! k = Some e -> ~ answers term e.

End Spec.

(** ** A day at the restaurant *)

Module Scenario.
Import Queue Spec.

Definition at_time (t : Z) (key : string) : Env :=
  {| now := t; today := "2026-03-01"; pushKey := key |}.

(** Alice joins with a party of two. *)
Definition alice_joined : Store :=
  run_call (Join "Alice" 2 "1111111111") (at_time 1000 "-Na") (initial None).

(** Bob joins alone. *)
Definition bob_joined : Store :=
  run_call (Join "Bob" 1 "2222222222") (at_time 2000 "-Nb") alice_joined.

(** Alice is called three minutes after she joined. *)
Definition alice_serving : Store :=
  run_call (Advance "-Na" "serving") (at_time 181000 "") bob_joined.

(** Alice is done. *)
Definition alice_completed : Store :=
  run_call (Advance "-Na" "completed") (at_time 900000 "") alice_serving.

Definition alice_at_table : Entry :=
  {| name := "Alice"; partySize := 2; phone := "1111111111"; position := 1;
     createdAt := 1000; updatedAt := 181000; servedAt := Some 181000;
     status := None; completedAt := None; waitTime := None |}.

Definition alice_archived : Entry :=
  {| name := "Alice"; partySize := 2; phone := "1111111111"; position := 1;
     createdAt := 1000; updatedAt := 181000; servedAt := Some 181000;
     status := Some "completed"; completedAt := Some 900000;
     waitTime := Some 3 |}.

Definition alice_in_line : Entry :=
  {| name := "Alice"; partySize := 2; phone := "1111111111"; position := 1;
     createdAt := 1000; updatedAt := 1000; servedAt := None;
     status := None; completedAt := None; waitTime := None |}.

Definition bob_in_line : Entry :=
  {| name := "Bob"; partySize := 1; phone := "2222222222"; position := 2;
     createdAt := 2000; updatedAt := 2000; servedAt := None;
     status := None; completedAt := None; waitTime := None |}.

(** Ann joins and leaves the number of her office. *)
Definition ann_joined : Store :=
  run_call (Join "Ann" 3 "OFFICE-555") (at_time 5000 "-Nq") (initial None).

Definition ann_in_line : Entry :=
  {| name := "Ann"; partySize := 3; phone := "OFFICE-555"; position := 1;
     createdAt := 5000; updatedAt := 5000; servedAt := None;
     status := None; completedAt := None; waitTime := None |}.

(** Bob is skipped a little later. *)
Definition bob_skipped : Store :=
  run_call (Advance "-Nb" "skipped") (at_time 950000 "") alice_completed.

Definition bob_archived : Entry :=
  {| name := "Bob"; partySize := 1; phone := "2222222222"; position := 2;
     createdAt := 2000; updatedAt := 2000; servedAt := None;
     status := Some "skipped"; completedAt := Some 950000;
     waitTime := Some 0 |}.

End Scenario.

(** ** What the further properties are stated with *)

Module More.
Import JS Queue Spec.

(** The minutes counted for each party of the line: the configured average,
    and 5 when none is configured or when it is 0. *)
Definition minutes_per_party (db : Store) : Z :=
  match averageServingTime db with
  | Some a => if decide (a = 0) then 5 else a
  | None => 5
  end.

(** [x] is ahead of [y] in the line: before it, and another entry. *)
Definition ahead_of (y x : string * Entry) : Prop :=
  before x y /\ x.1 <> y.1.

Global Instance before_dec x y : Decision (before x y).
Proof. unfold before. apply _. Defined.

Global Instance ahead_of_dec y x : Decision (ahead_of y x).
Proof. unfold ahead_of. apply _. Defined.

(** How many entries of [w] are ahead of the entry [e] under key [k]. *)
Definition ahead (w : gmap string Entry) (k : string) (e : Entry) : nat :=
  length (filter (ahead_of (k, e)) (map_to_list w)).

(** When an archived entry was completed or skipped, 0 when it does not
    say. *)
Definition completion_time (a : Entry) : Z := default 0 (completedAt a).

(** [x] was archived no earlier than [y]. *)
Definition no_earlier (x y : string * Entry) : Prop :=
  completion_time y.2 <= completion_time x.2.

(** The record of a day or of a month adds up: it has served no negative
    number of parties and at least one person per party, it has a total of
    the waits, and its average is that total divided by the number of
    parties and rounded, or is missing as long as no party was served. *)
Definition adds_up (s : Stats) : Prop :=
  exists t,
    totalWaitTime s = Some t /\
    0 <= totalServed s <= totalPeople s /\
    avgWaitTime s =
      if decide (totalServed s = 0) then None
      else Some (Finite (Math_round (inject_Z t / inject_Z (totalServed s)))).

(** The record that [updateDailyStats] starts a day with, and the one it
    starts a month with. *)
Definition fresh_day (t : Z) : Stats :=
  {| totalServed := 0; totalPeople := 0; totalWaitTime := Some 0;
     avgWaitTime := None; lastUpdated := Some t |}.

Definition fresh_month : Stats :=
  {| totalServed := 0; totalPeople := 0; totalWaitTime := Some 0;
     avgWaitTime := None; lastUpdated := None |}.

(** All records of the statistics add up. *)
Definition stats_add_up (db : Store) : Prop :=
  (forall k s, daily db !! k = Some s -> adds_up s) /\
  (forall k s, monthly db !! k = Some s -> adds_up s).

(** The sum of [f] over the daily records of the days of month [m]. *)
Definition sumZ (l : list Z) : Z := foldr Z.add 0 l.

Definition month_total (f : Stats -> Z) (m : string)
    (d : gmap string Stats) : Z :=
  sumZ ((fun kv => if decide (month_of kv.1 = m) then f kv.2 else 0)
          <$> map_to_list d).

(** The total wait of a record, 0 when it has none. *)
Definition waited (s : Stats) : Z := default 0 (totalWaitTime s).

(** The record of each month is the sum of the records of its days. *)
Definition months_match (db : Store) : Prop :=
  forall (f : Stats -> Z) (m : string),
    f = totalServed \/ f = totalPeople \/ f = waited ->
    from_option f 0 (monthly db !! m) = month_total f m (daily db).

(** The positions of the waiting partition are positive and no two entries
    of it have the same. *)
Definition line_in_order (w : gmap string Entry) : Prop :=
  (forall k e, w !! k = Some e -> 1 <= position e) /\
  (forall k1 e1 k2 e2,
     w !! k1 = Some e1 -> w !! k2 = Some e2 ->
     position e1 = position e2 -> k1 = k2).

(** How many entries of [w] have a stored position below [p]. *)
Definition below (w : gmap string Entry) (p : Z) : nat :=
  length (filter (fun q => q < p) ((fun kv => position kv.2) <$> map_to_list w)).

(** No id is both in the waiting and in the serving partition. *)
Definition one_place (db : Store) : Prop :=
  forall k, is_Some (waiting db !! k) -> serving db !! k = None.



(** A text that does not begin with a decimal digit. *)
Definition no_digit_first (s : string) : Prop :=
  match s with String c _ => is_digit c = false | EmptyString => True end.

(** A text that does not begin with x or X. *)
Definition no_hex_mark (s : string) : Prop :=
  match s with
  | String c _ => ((c =? "x")%char || (c =? "X")%char) = false
  | EmptyString => True
  end.

End More.

(** * Properties *)

(** ** Strings *)

Module JSFacts.
Import JS Spec.

Lemma is_digit_decimal (c : ascii) :
  is_digit c = true <-> In c decimal_digits.
Proof.
  destruct c as [[] [] [] [] [] [] [] []]; vm_compute;
    (split; [ intros _ | reflexivity ]; tauto)
    || (split; [ discriminate | intros H; repeat destruct H as [H|H]; try discriminate H; contradiction ]).
Qed.

Lemma digit_not_white (c : ascii) : is_digit c = true -> is_white c = false.
Proof.
  destruct c as [[] [] [] [] [] [] [] []]; vm_compute; intros H;
    reflexivity || discriminate H.
Qed.

Lemma trimEnd_cons_black (c : ascii) (s : string) :
  is_white c = false -> truthy (trimEnd (String c s)) = true.
Proof.
  intros Hc. simpl. destruct (trimEnd s); [ rewrite Hc | ]; reflexivity.
Qed.

Lemma trim_cons_black (c : ascii) (s : string) :
  is_white c = false -> truthy (trim (String c s)) = true.
Proof.
  intros Hc. unfold trim. simpl. rewrite Hc. now apply trimEnd_cons_black.
Qed.

Lemma truthy_length (s : string) :
  truthy s = true <-> (0 < String.length s)%nat.
Proof. destruct s; simpl; split; intros; try lia; congruence. Qed.

Lemma truthy_neq (s : string) : truthy s = true <-> s <> "".
Proof. destruct s; simpl; split; intros; congruence. Qed.

Lemma trim_truthy (s : string) : truthy (trim s) = true -> truthy s = true.
Proof. destruct s; [ discriminate | reflexivity ]. Qed.

Lemma length_substring (s : string) (n m : nat) :
  String.length (String.substring n m s) = Nat.min m (String.length s - n).
Proof.
  revert n m.
  induction s as [|c s IH]; intros [|n] [|m];
    cbn [String.substring String.length]; rewrite ?IH; lia.
Qed.

Lemma slice_last_truthy (s : string) :
  truthy s = true -> truthy (slice_last 7 s) = true.
Proof.
  rewrite !truthy_length. unfold slice_last. rewrite length_substring. lia.
Qed.

Lemma toLowerCase_truthy (s : string) : truthy (toLowerCase s) = truthy s.
Proof. now destruct s. Qed.

End JSFacts.

(** ** Validation utilities *)

Module ValidationFacts.
Import JS Spec JSFacts Validation.

(** [\d{n}] followed by the end of the input accepts exactly the strings of
    [n] digits. *)
Lemma digits_end (n : nat) (s : string) :
  digits n s = Some "" <->
  String.length s = n /\ Forall (fun c => is_digit c = true) (list_ascii_of_string s).
Proof.
  revert s; induction n as [|n IH]; intros [|c s]; simpl.
  - split; [ intros _; split; [ reflexivity | constructor ] | reflexivity ].
  - split; [ discriminate | intros [H _]; discriminate H ].
  - split; [ discriminate | intros [H _]; discriminate H ].
  - destruct (is_digit c) eqn:Hc.
    + rewrite IH. split.
      * intros [Hl Hd]. split; [ now f_equal | now constructor ].
      * intros [Hl Hd]. split; [ now injection Hl | now inversion Hd ].
    + split; [ discriminate | ].
      intros [_ Hd]. inversion Hd; congruence.
Qed.

Lemma test_ten_digits_spec (s : string) :
  test_ten_digits s = true <->
  String.length s = 10%nat /\ Forall (fun c => is_digit c = true) (list_ascii_of_string s).
Proof.
  rewrite <- digits_end. unfold test_ten_digits.
  destruct (digits 10 s) as [[|c r]|]; split; congruence.
Qed.

(** C8.  [validatePhone p] answers valid exactly when [p] has 10 characters
    and each of them is one of the decimal digits 0..9; "1234567890" is
    valid, while a string of 9 digits, one of 11 digits and "123abc7890" are
    not. *)
Theorem validatePhone_ten_digits :
  (forall p : string,
     valid (validatePhone p) = true <->
     String.length p = 10%nat /\
     Forall (fun c => In c decimal_digits) (list_ascii_of_string p)) /\
  valid (validatePhone "1234567890") = true /\
  valid (validatePhone "123456789") = false /\
  valid (validatePhone "12345678901") = false /\
  valid (validatePhone "123abc7890") = false.
Proof.
  split; [ | repeat split ].
  intros p.
  assert (Hd : Forall (fun c => In c decimal_digits) (list_ascii_of_string p) <->
               Forall (fun c => is_digit c = true) (list_ascii_of_string p)).
  { rewrite !List.Forall_forall. split; intros H c Hc; apply is_digit_decimal; auto. }
  rewrite Hd. clear Hd. unfold validatePhone.
  destruct (negb (truthy p) || negb (truthy (trim p))) eqn:Hblank.
  - simpl. split; [ discriminate | ]. intros [Hl Hall]. exfalso.
    destruct p as [|c p]; [ discriminate Hl | ].
    inversion Hall as [|? ? Hc _]; subst.
    rewrite (trim_cons_black c p (digit_not_white c Hc)) in Hblank.
    discriminate Hblank.
  - destruct (String.length p =? 10)%nat eqn:Hlen; simpl.
    + apply Nat.eqb_eq in Hlen.
      destruct (test_ten_digits p) eqn:Ht; simpl.
      * apply test_ten_digits_spec in Ht. tauto.
      * split; [ discriminate | ]. intros H.
        apply test_ten_digits_spec in H. congruence.
    + apply Nat.eqb_neq in Hlen. split; [ discriminate | tauto ].
Qed.

(** C9.  [validateName] bounds the trimmed length of a name by 30: a name
    whose trimmed length exceeds 30 is rejected, one that is not blank and
    within the bound is accepted.  The message of the rejection, however,
    speaks of 50 characters. *)
Theorem validateName_limit_30_message_50 (name : string) :
  ((30 < String.length (trim name))%nat ->
   validateName name =
     {| valid := false; message := "Name must not exceed 50 characters" |}) /\
  (trim name <> "" -> (String.length (trim name) <= 30)%nat ->
   validateName name = {| valid := true; message := "Name is valid" |}).
Proof.
  unfold validateName. split.
  - intros Hlen.
    assert (Ht : truthy (trim name) = true) by (apply truthy_length; lia).
    rewrite Ht, (trim_truthy _ Ht). simpl.
    apply Nat.ltb_lt in Hlen. now rewrite Hlen.
  - intros Ht Hlen. apply truthy_neq in Ht.
    rewrite Ht, (trim_truthy _ Ht). simpl.
    destruct (Nat.ltb_spec 30 (String.length (trim name))); [ lia | reflexivity ].
Qed.

(** A name of 31 characters is rejected with the message about 50; without
    its last character it is accepted. *)
Lemma validateName_31_characters :
  validateName "Bartholomew Maximilian Fitzroy-" =
    {| valid := false; message := "Name must not exceed 50 characters" |} /\
  validateName "Bartholomew Maximilian Fitzroy" =
    {| valid := true; message := "Name is valid" |}.
Proof.
  split.
  - apply (proj1 (validateName_limit_30_message_50
                    "Bartholomew Maximilian Fitzroy-")).
    vm_compute. lia.
  - apply (proj2 (validateName_limit_30_message_50
                    "Bartholomew Maximilian Fitzroy"));
      [ discriminate | vm_compute; lia ].
Defined.

End ValidationFacts.

(** ** The queue service *)

Module QueueFacts.
Import JS Spec JSFacts Queue Scenario.

Ltac run :=
  unfold bind, read, write, ret, throw; simpl.

(** *** Numbers *)

Lemma orZ_zero (z : Z) : orZ z 0 = z.
Proof. unfold orZ, truthyZ. destruct (Z.eqb_spec z 0); simpl; congruence. Qed.

Lemma orZ_nonzero (z d : Z) : z <> 0 -> orZ z d = z.
Proof. unfold orZ, truthyZ. destruct (Z.eqb_spec z 0); simpl; congruence. Qed.

Lemma Math_max_ge (ps : list Z) (p x : Z) :
  x ∈ p :: ps -> x <= Math_max p ps.
Proof.
  unfold Math_max. revert p x.
  induction ps as [|q ps IH]; intros p x Hx; simpl.
  - apply list_elem_of_singleton in Hx. lia.
  - apply elem_of_cons in Hx as [Hx|Hx].
    + transitivity (Z.max p q); [ lia | apply IH; left ].
    + apply elem_of_cons in Hx as [Hx|Hx].
      * transitivity (Z.max p q); [ lia | apply IH; left ].
      * apply IH. now right.
Qed.

Lemma Math_max_elem (ps : list Z) (p : Z) : Math_max p ps ∈ p :: ps.
Proof.
  unfold Math_max. revert p.
  induction ps as [|q ps IH]; intros p; simpl; [ left | ].
  specialize (IH (Z.max p q)).
  apply elem_of_cons in IH as [->|IH].
  - destruct (Z.max_spec p q) as [[_ ->]|[_ ->]]; [ right; left | left ].
  - right; now right.
Qed.

(** *** Enumerating a location in key order *)

Section Entries.
Context {A : Type}.
Implicit Types (m : gmap string A) (k : string) (a : A).

Lemma entries_perm m : entries m ≡ₚ map_to_list m.
Proof. apply merge_sort_Permutation. Qed.

Lemma elem_of_entries m k a : (k, a) ∈ entries m <-> m !! k = Some a.
Proof. rewrite entries_perm. apply elem_of_map_to_list. Qed.

Lemma NoDup_keys_entries m : NoDup (entries m).*1.
Proof. rewrite entries_perm. apply NoDup_fst_map_to_list. Qed.

Lemma entries_nil m : entries m = [] <-> m = ∅.
Proof.
  split.
  - intros H. apply map_to_list_empty_iff.
    apply Permutation_nil_r. rewrite <- H. symmetry. apply entries_perm.
  - intros ->. apply Permutation_nil_r. rewrite entries_perm.
    now rewrite map_to_list_empty.
Qed.

Lemma exists_false m : exists_ m = false <-> m = ∅.
Proof.
  rewrite <- entries_nil. unfold exists_.
  destruct (entries m); split; congruence.
Qed.

Lemma exists_true m : exists_ m = true <-> m <> ∅.
Proof.
  rewrite <- exists_false. destruct (exists_ m); split; congruence.
Qed.

Lemma elem_of_values m a : a ∈ values m <-> exists k, m !! k = Some a.
Proof.
  unfold values. rewrite list_elem_of_fmap. split.
  - intros [[k a'] [-> H]]. exists k. now apply elem_of_entries.
  - intros [k H]. exists (k, a). split; [ reflexivity | now apply elem_of_entries ].
Qed.

Lemma length_entries m : length (entries m) = size m.
Proof. rewrite entries_perm. apply length_map_to_list. Qed.

End Entries.

(** *** Position assignment *)

Lemma one_above_max_unique w n n' :
  one_above_max w n -> one_above_max w n' -> n = n'.
Proof.
  intros (He & Hlt & Hex) (He' & Hlt' & Hex').
  destruct (decide (w = ∅)) as [Hw|Hw]; [ rewrite He, He'; auto | ].
  destruct (Hex Hw) as (k & e & Hk & ->).
  destruct (Hex' Hw) as (k' & e' & Hk' & ->).
  specialize (Hlt' _ _ Hk). specialize (Hlt _ _ Hk'). lia.
Qed.

Lemma getNextPosition_spec (db : Store) :
  exists n, getNextPosition db = (db, Returns n) /\
            one_above_max (waiting db) n.
Proof.
  unfold getNextPosition. run.
  destruct (exists_ (waiting db)) eqn:Hex; simpl.
  - apply exists_true in Hex.
    destruct ((fun q => orZ (position q) 0) <$> values (waiting db))
      as [|p ps] eqn:Hps.
    + apply fmap_nil_inv in Hps. unfold values in Hps.
      apply fmap_nil_inv in Hps. apply entries_nil in Hps. contradiction.
    + eexists; split; [ reflexivity | ].
      split; [ contradiction | split ].
      * intros k e Hk.
        assert (position e ∈ p :: ps) as Hin.
        { rewrite <- Hps. apply list_elem_of_fmap. exists e.
          split; [ now rewrite orZ_zero | apply elem_of_values; eauto ]. }
        apply Math_max_ge in Hin. lia.
      * intros _. pose proof (Math_max_elem ps p) as Hin.
        rewrite <- Hps in Hin. apply list_elem_of_fmap in Hin as (e & He & Hin).
        apply elem_of_values in Hin as [k Hk].
        exists k, e. split; [ assumption | ]. rewrite He, orZ_zero. reflexivity.
  - apply exists_false in Hex.
    eexists; split; [ reflexivity | ].
    split; [ reflexivity | split ].
    + intros k e. rewrite Hex, lookup_empty. discriminate.
    + contradiction.
Qed.

Lemma one_above_max_insert w k e :
  one_above_max w (position e) ->
  one_above_max (<[k := e]> w) (position e + 1).
Proof.
  intros (_ & Hlt & _). split; [ | split ].
  - intros H. now apply insert_non_empty in H.
  - intros k' e'. rewrite lookup_insert. case_decide.
    + intros [= <-]. lia.
    + intros H'. specialize (Hlt _ _ H'). lia.
  - intros _. exists k, e. split; [ apply lookup_insert_eq | reflexivity ].
Qed.

Lemma joinQueue_accepts name partySize phone env db :
  trim name <> "" -> trim phone <> "" -> 1 <= partySize ->
  exists e,
    joinQueue name partySize phone env db =
      (with_waiting (<[pushKey env := e]> (waiting db)) db,
       Returns (pushKey env)) /\
    one_above_max (waiting db) (position e) /\
    partySize = Queue.partySize e.
Proof.
  intros Hn Hp Hs. unfold joinQueue.
  apply truthy_neq in Hn, Hp. rewrite Hn, Hp.
  destruct (Z.ltb_spec partySize 1) as [|_]; [ lia | ]. simpl.
  destruct (getNextPosition_spec db) as (n & Hnext & Hmax).
  unfold bind at 1. rewrite Hnext. run.
  eexists; split; [ reflexivity | ]. split; [ exact Hmax | reflexivity ].
Qed.

Lemma join_all_from (calls : list JoinCall) (db : Store) (n : Z) :
  one_above_max (waiting db) n -> Forall joinable calls ->
  join_all calls db =
    (fun i => Some (n + Z.of_nat i)) <$> seq 0 (length calls).
Proof.
  revert db n. induction calls as [|c calls IH]; intros db n Hmax Hall.
  - reflexivity.
  - inversion Hall as [|? ? (Hn & Hp & Hs) Hall']; subst.
    destruct (joinQueue_accepts _ _ _ (call_env c) db Hn Hp Hs)
      as (e & Hjoin & Hmax' & _).
    pose proof (one_above_max_unique _ _ _ Hmax Hmax') as Hne.
    simpl. rewrite Hjoin. simpl. rewrite lookup_insert_eq. simpl.
    f_equal; [ f_equal; lia | ].
    rewrite (IH _ (n + 1)); [ | | assumption ].
    + rewrite <- fmap_S_seq, <- list_fmap_compose.
      apply list_fmap_ext. intros _ i _. simpl. f_equal. lia.
    + simpl. rewrite Hne. now apply one_above_max_insert.
Qed.

(** C1.  A call of [joinQueue] that is not refused stores, under the key
    that [push] generates, an entry whose position is one more than the
    greatest position in the waiting partition, and 1 when that partition is
    empty.  Hence N such calls made one after the other, the first of them
    on an empty waiting partition, assign the positions 1, 2, ..., N in the
    order of the calls. *)
Theorem joinQueue_assigns_next_position :
  (forall name partySize phone env db,
     trim name <> "" -> trim phone <> "" -> 1 <= partySize ->
     exists e,
       joinQueue name partySize phone env db =
         (with_waiting (<[pushKey env := e]> (waiting db)) db,
          Returns (pushKey env)) /\
       one_above_max (waiting db) (position e)) /\
  (forall calls db,
     waiting db = ∅ -> Forall joinable calls ->
     join_all calls db =
       (fun i => Some (Z.of_nat i)) <$> seq 1 (length calls)).
Proof.
  split.
  - intros name partySize phone env db Hn Hp Hs.
    destruct (joinQueue_accepts name partySize phone env db Hn Hp Hs)
      as (e & H1 & H2 & _). eauto.
  - intros calls db Hempty Hall.
    rewrite (join_all_from calls db 1); [ | | assumption ].
    + rewrite <- fmap_S_seq, <- list_fmap_compose.
      apply list_fmap_ext. intros _ i _. simpl. f_equal. lia.
    + split; [ reflexivity | split ].
      * intros k e. rewrite Hempty, lookup_empty. discriminate.
      * contradiction.
Qed.

(** Alice, Bob and Carol join an empty queue, in this order. *)
Lemma three_joins_in_order :
  join_all
    [ {| call_name := "Alice"; call_partySize := 2; call_phone := "1111111111";
         call_env := {| now := 1000; today := "2026-03-01"; pushKey := "-Na" |} |};
      {| call_name := "Bob"; call_partySize := 1; call_phone := "2222222222";
         call_env := {| now := 2000; today := "2026-03-01"; pushKey := "-Nb" |} |};
      {| call_name := "Carol"; call_partySize := 4; call_phone := "3333333333";
         call_env := {| now := 3000; today := "2026-03-01"; pushKey := "-Nc" |} |} ]
    empty_store
  = [Some 1; Some 2; Some 3] /\
  exists e,
    joinQueue "Alice" 2 "1111111111"
      {| now := 1000; today := "2026-03-01"; pushKey := "-Na" |} empty_store =
      (with_waiting (<[ "-Na" := e ]> ∅) empty_store, Returns "-Na") /\
    one_above_max ∅ (position e).
Proof.
  split.
  - apply (proj2 joinQueue_assigns_next_position); [ reflexivity | ].
    repeat constructor; simpl; discriminate || lia.
  - apply (proj1 joinQueue_assigns_next_position "Alice" 2 "1111111111"
             {| now := 1000; today := "2026-03-01"; pushKey := "-Na" |}
             empty_store); simpl; discriminate || lia.
Defined.

(** *** Statistics *)

Lemma update_child_lookup key new (m : gmap string Stats) :
  exists s', update_child key new m !! key = Some s' /\
             totalServed s' = totalServed new /\
             totalPeople s' = totalPeople new.
Proof.
  unfold update_child. destruct (m !! key) as [old|];
    rewrite lookup_insert_eq; eexists; (split; [ reflexivity | split; reflexivity ]).
Qed.

Lemma update_child_lookup_ne key new (m : gmap string Stats) k :
  k <> key -> update_child key new m !! k = m !! k.
Proof.
  intros Hk. unfold update_child.
  destruct (m !! key); now rewrite lookup_insert_ne.
Qed.

(** What [updateDailyStats] does: it never throws, it leaves the three
    partitions alone, and of the daily records it touches at most the one of
    today, whose counters it increments for "completed" only. *)
Lemma updateDailyStats_effect status p w env db :
  exists db',
    updateDailyStats status p w env db = (db', Returns tt) /\
    waiting db' = waiting db /\ serving db' = serving db /\
    archived db' = archived db /\
    averageServingTime db' = averageServingTime db /\
    (forall k, k <> today env -> daily db' !! k = daily db !! k) /\
    let served0 := from_option totalServed 0 (daily db !! today env) in
    let people0 := from_option totalPeople 0 (daily db !! today env) in
    (status <> "completed" ->
       daily db' !! today env = daily db !! today env \/
       exists s', daily db' !! today env = Some s' /\
                  totalServed s' = served0 /\ totalPeople s' = people0) /\
    (status = "completed" ->
       (served0 + 1 = 0 /\ daily db' = daily db) \/
       (served0 + 1 <> 0 /\
        exists s', daily db' !! today env = Some s' /\
                   totalServed s' = served0 + 1 /\
                   totalPeople s' = people0 + p)).
Proof.
  unfold updateDailyStats, try_log, update_daily, update_monthly. run.
  destruct (String.eqb_spec status "completed") as [->|Hs].
  - (* completed *)
    set (cur := match daily db !! today env with Some s => s | None => _ end).
    assert (Hserved : totalServed cur = from_option totalServed 0 (daily db !! today env))
      by (subst cur; destruct (daily db !! today env); reflexivity).
    assert (Hpeople : totalPeople cur = from_option totalPeople 0 (daily db !! today env))
      by (subst cur; destruct (daily db !! today env); reflexivity).
    rewrite <- Hserved, <- Hpeople.
    unfold finite_stats at 1. simpl. unfold round_quotient at 1.
    rewrite !orZ_zero.
    destruct (Z.eqb_spec (totalServed cur + 1) 0) as [Hz|Hz]; simpl.
    + eexists; split; [ reflexivity | ].
      repeat (split; [ reflexivity || (intros; reflexivity) | ]).
      split; [ congruence | intros _; left; split; [ assumption | reflexivity ] ].
    + match goal with
      | |- context [finite_stats ?s] => destruct (finite_stats s)
      end; simpl;
      (eexists; split; [ reflexivity | ]; simpl;
       repeat (split; [ reflexivity | ]);
       split; [ intros k Hk; now apply update_child_lookup_ne | ];
       split; [ congruence | intros _; right; split; [ assumption | ] ];
       match goal with
       | |- context [update_child ?k ?n ?m] =>
           destruct (update_child_lookup k n m) as (s' & Hs' & H1 & H2)
       end;
       exists s'; split; [ exact Hs' | ]; rewrite H1, H2; simpl;
       rewrite !orZ_zero; split; reflexivity).
  - (* any other status *)
    set (cur := match daily db !! today env with Some s => s | None => _ end).
    assert (Hserved : totalServed cur = from_option totalServed 0 (daily db !! today env))
      by (subst cur; destruct (daily db !! today env); reflexivity).
    assert (Hpeople : totalPeople cur = from_option totalPeople 0 (daily db !! today env))
      by (subst cur; destruct (daily db !! today env); reflexivity).
    rewrite <- Hserved, <- Hpeople.
    destruct (finite_stats (set_lastUpdated (now env) cur)); simpl.
    + eexists; split; [ reflexivity | ]; simpl.
      repeat (split; [ reflexivity | ]).
      split; [ intros k Hk; now apply update_child_lookup_ne | ].
      split; [ | congruence ].
      intros _. right.
      destruct (update_child_lookup (today env) (set_lastUpdated (now env) cur)
                  (daily db)) as (s' & Hs' & H1 & H2).
      exists s'. split; [ exact Hs' | ]. rewrite H1, H2. split; reflexivity.
    + eexists; split; [ reflexivity | ].
      repeat (split; [ reflexivity || (intros; reflexivity) | ]).
      split; [ intros _; now left | congruence ].
Qed.

(** *** [updateQueueStatus], case by case *)

Lemma allowed_status (s : string) :
  s ∈ validStatuses <-> s = "serving" \/ s = "completed" \/ s = "skipped".
Proof.
  unfold validStatuses. rewrite !elem_of_cons, elem_of_nil. tauto.
Qed.

Lemma updateQueueStatus_invalid queueId newStatus env db :
  newStatus ∉ validStatuses ->
  updateQueueStatus queueId newStatus env db =
    (db, Throws (InvalidStatus newStatus)).
Proof.
  intros H. unfold updateQueueStatus.
  rewrite bool_decide_eq_false_2 by assumption. reflexivity.
Qed.

Lemma updateQueueStatus_unfound queueId newStatus env db :
  newStatus ∈ validStatuses -> locate db queueId = None ->
  updateQueueStatus queueId newStatus env db =
    (db, Throws NotInWaitingOrServing).
Proof.
  intros H Hloc. unfold updateQueueStatus, locate in *.
  rewrite bool_decide_eq_true_2 by assumption. run.
  destruct (waiting db !! queueId); [ discriminate | ]. simpl.
  destruct (serving db !! queueId); [ discriminate | ]. reflexivity.
Qed.

Lemma updateQueueStatus_serving queueId env db e loc :
  locate db queueId = Some (e, loc) ->
  updateQueueStatus queueId "serving" env db =
    match loc with
    | InWaiting =>
        (with_serving (<[queueId := served (now env) e]> (serving db))
           (with_waiting (delete queueId (waiting db)) db),
         Returns tt)
    | InServing => (db, Returns tt)
    end.
Proof.
  intros Hloc. unfold updateQueueStatus, locate in *. run.
  destruct (waiting db !! queueId); simpl.
  - injection Hloc as <- <-. reflexivity.
  - destruct (serving db !! queueId); [ | discriminate ].
    injection Hloc as <- <-. reflexivity.
Qed.

Lemma updateQueueStatus_archive queueId newStatus env db e loc :
  newStatus = "completed" \/ newStatus = "skipped" ->
  locate db queueId = Some (e, loc) ->
  updateQueueStatus queueId newStatus env db =
    let db1 :=
      match loc with
      | InWaiting => with_waiting (delete queueId (waiting db)) db
      | InServing => with_serving (delete queueId (serving db)) db
      end in
    let db2 :=
      with_archived
        (<[queueId := archive newStatus (now env) (wait_minutes e) e]>
           (archived db)) db1 in
    updateDailyStats newStatus (orZ (partySize e) 1) (wait_minutes e) env db2.
Proof.
  intros Hs Hloc. unfold updateQueueStatus, locate in *.
  rewrite bool_decide_eq_true_2 by (apply allowed_status; tauto).
  assert (Hb : ((newStatus =? "serving")%string = false) /\
               ((newStatus =? "completed")%string
                || (newStatus =? "skipped")%string = true))
    by (destruct Hs as [-> | ->]; split; reflexivity).
  destruct Hb as [Hb1 Hb2]. run.
  destruct (waiting db !! queueId); simpl.
  - injection Hloc as <- <-. rewrite Hb1, Hb2. reflexivity.
  - destruct (serving db !! queueId); [ | discriminate ].
    injection Hloc as <- <-. simpl. rewrite Hb1, Hb2. reflexivity.
Qed.

(** *** Every database that is reached is well formed *)

Lemma joinQueue_cases name partySize phone env db :
  joinQueue name partySize phone env db = (db, Throws FillAllFields) \/
  exists e,
    joinQueue name partySize phone env db =
      (with_waiting (<[pushKey env := e]> (waiting db)) db,
       Returns (pushKey env)) /\
    1 <= Queue.partySize e.
Proof.
  destruct (decide (trim name = "")) as [Hn|Hn].
  { left. unfold joinQueue. rewrite Hn. reflexivity. }
  destruct (decide (trim phone = "")) as [Hp|Hp].
  { left. unfold joinQueue. rewrite Hp. now rewrite orb_true_r. }
  destruct (Z.ltb_spec partySize 1) as [Hs|Hs].
  { left. unfold joinQueue. apply Z.ltb_lt in Hs. rewrite Hs.
    now rewrite orb_true_r. }
  right. destruct (joinQueue_accepts name partySize phone env db Hn Hp Hs)
    as (e & H1 & _ & H3).
  exists e. split; [ assumption | lia ].
Qed.

Lemma lookup_update_position key p (m : gmap string Entry) k e' :
  update_position key p m !! k = Some e' ->
  exists e, m !! k = Some e /\
            e' = (if decide (key = k) then set_position p e else e).
Proof.
  unfold update_position. rewrite lookup_alter. case_decide as Hk.
  - subst k. destruct (m !! key) as [e|]; simpl; [ | discriminate ].
    intros [= <-]. eauto.
  - intros H. eauto.
Qed.

Lemma reorderQueues_cases queueId1 queueId2 db :
  (reorderQueues queueId1 queueId2 db = (db, Throws NotInWaitingQueue) /\
   (waiting db !! queueId1 = None \/ waiting db !! queueId2 = None)) \/
  exists d1 d2,
    waiting db !! queueId1 = Some d1 /\ waiting db !! queueId2 = Some d2 /\
    reorderQueues queueId1 queueId2 db =
      (with_waiting
         (update_position queueId2 (position d1)
            (update_position queueId1 (position d2) (waiting db))) db,
       Returns tt).
Proof.
  unfold reorderQueues. run.
  destruct (waiting db !! queueId1) as [d1|]; [ | left; auto ].
  destruct (waiting db !! queueId2) as [d2|]; [ | left; auto ].
  right. exists d1, d2. auto.
Qed.

Ltac split_well_formed := split; [ | split; [ | split ] ].

Lemma well_formed_initial settings : well_formed (initial settings).
Proof.
  split_well_formed; intros k x; simpl; rewrite lookup_empty; discriminate.
Qed.

Lemma well_formed_join name partySize phone env db :
  well_formed db -> well_formed (joinQueue name partySize phone env db).1.
Proof.
  intros Hwf.
  destruct (joinQueue_cases name partySize phone env db)
    as [-> | (e & -> & He)]; simpl; [ assumption | ].
  destruct Hwf as (Hw & Hs & Hd & Ha).
  split_well_formed; simpl; try assumption.
  intros k e'. rewrite lookup_insert. case_decide; [ | eauto ].
  intros [= <-]. assumption.
Qed.

Lemma well_formed_reorder queueId1 queueId2 db :
  well_formed db -> well_formed (reorderQueues queueId1 queueId2 db).1.
Proof.
  intros Hwf.
  destruct (reorderQueues_cases queueId1 queueId2 db)
    as [[-> _] | (d1 & d2 & _ & _ & ->)]; simpl; [ assumption | ].
  destruct Hwf as (Hw & Hs & Hd & Ha).
  split_well_formed; simpl; try assumption.
  intros k e' H.
  apply lookup_update_position in H as (e1 & H & ->).
  apply lookup_update_position in H as (e0 & H & ->).
  apply Hw in H. repeat case_decide; simpl; assumption.
Qed.

Lemma well_formed_delete queueId db :
  well_formed db -> well_formed (deleteQueueEntry queueId db).1.
Proof.
  intros (Hw & Hs & Hd & Ha). unfold deleteQueueEntry. run.
  split_well_formed; simpl; try assumption.
  - intros k e H. apply lookup_delete_Some in H as [_ H]. eauto.
  - intros k e H. apply lookup_delete_Some in H as [_ H]. eauto.
Qed.

Lemma locate_Some db queueId e loc :
  locate db queueId = Some (e, loc) ->
  match loc with
  | InWaiting => waiting db !! queueId = Some e
  | InServing => waiting db !! queueId = None /\ serving db !! queueId = Some e
  end.
Proof.
  unfold locate. destruct (waiting db !! queueId).
  - intros [= <- <-]. reflexivity.
  - destruct (serving db !! queueId); [ | discriminate ].
    intros [= <- <-]. auto.
Qed.

Lemma well_formed_advance queueId newStatus env db :
  well_formed db -> well_formed (updateQueueStatus queueId newStatus env db).1.
Proof.
  intros Hwf.
  destruct (decide (newStatus ∈ validStatuses)) as [Hv|Hv];
    [ | now rewrite updateQueueStatus_invalid ].
  destruct (locate db queueId) as [[e loc]|] eqn:Hloc;
    [ | now rewrite updateQueueStatus_unfound ].
  destruct Hwf as (Hw & Hs & Hd & Ha).
  assert (He : 1 <= partySize e).
  { apply locate_Some in Hloc. destruct loc; [ eauto | destruct Hloc; eauto ]. }
  apply allowed_status in Hv as [-> | Hv].
  - (* to serving *)
    rewrite (updateQueueStatus_serving _ _ _ _ _ Hloc).
    destruct loc; simpl; [ | split_well_formed; assumption ].
    split_well_formed; simpl; try assumption.
    + intros k e' H. apply lookup_delete_Some in H as [_ H]. eauto.
    + intros k e'. rewrite lookup_insert. case_decide; [ | eauto ].
      intros [= <-]. assumption.
  - (* to the archive *)
    rewrite (updateQueueStatus_archive _ _ _ _ _ _ Hv Hloc). cbv zeta.
    match goal with
    | |- context [updateDailyStats ?s ?p ?w ?env ?db2] =>
        destruct (updateDailyStats_effect s p w env db2)
          as (db' & -> & Ew & Es & Ea & _ & Hother & Hskip & Hdone)
    end.
    simpl.
    assert (Hserved0 :
      0 <= from_option totalServed 0 (daily db !! today env)).
    { destruct (daily db !! today env) eqn:Hd0; simpl; [ eauto | lia ]. }
    assert (Hd2 : forall x, daily (with_archived x
               match loc with
               | InWaiting => with_waiting (delete queueId (waiting db)) db
               | InServing => with_serving (delete queueId (serving db)) db
               end) = daily db) by (intros; destruct loc; reflexivity).
    rewrite Hd2 in Hother, Hskip, Hdone. cbv zeta in Hskip, Hdone.
    split_well_formed.
    + rewrite Ew. intros k e'. destruct loc; simpl; [ | eauto ].
      intros H. apply lookup_delete_Some in H as [_ H]. eauto.
    + rewrite Es. intros k e'. destruct loc; simpl; [ eauto | ].
      intros H. apply lookup_delete_Some in H as [_ H]. eauto.
    + intros k s Hk.
      destruct (decide (k = today env)) as [->|Hne];
        [ | rewrite Hother in Hk by assumption; eauto ].
      destruct (decide (newStatus = "completed")) as [Hc|Hc].
      * destruct (Hdone Hc) as [[_ E] | [_ (s' & Hs' & H1 & _)]].
        -- rewrite E in Hk. eauto.
        -- rewrite Hs' in Hk. injection Hk as <-. lia.
      * destruct (Hskip Hc) as [E | (s' & Hs' & H1 & _)].
        -- rewrite E in Hk. eauto.
        -- rewrite Hs' in Hk. injection Hk as <-. lia.
    + rewrite Ea. intros k a H. simpl in H.
      apply lookup_insert_Some in H as [[_ <-] | [_ H]]; [ | eauto ].
      split; [ reflexivity | simpl; destruct Hv as [-> | ->]; auto ].
Qed.

Lemma reachable_well_formed db : reachable db -> well_formed db.
Proof.
  induction 1 as [settings | c env db _ IH].
  - apply well_formed_initial.
  - destruct c; simpl.
    + now apply well_formed_join.
    + now apply well_formed_advance.
    + now apply well_formed_reorder.
    + now apply well_formed_delete.
Qed.

(** *** Rounding the wait to minutes *)

Lemma Math_round_fraction (n : Z) (d : positive) :
  Math_round (n # d) = (2 * n + Z.pos d) / (2 * Z.pos d).
Proof.
  unfold Math_round.
  rewrite (Qfloor_comp _ ((2 * n + Z.pos d) # (2 * d))).
  - reflexivity.
  - unfold Qplus, Qeq. simpl. lia.
Qed.

Lemma minutes_rounded (d : Z) :
  Math_round (inject_Z d / inject_Z 1000 / inject_Z 60) =
  Math_round (inject_Z d / inject_Z 60000).
Proof.
  unfold Math_round. apply Qfloor_comp.
  unfold Qdiv, Qinv, Qmult, Qplus, Qeq, inject_Z. simpl. lia.
Qed.

Lemma minutes_nearest (d : Z) :
  let w := Math_round (inject_Z d / inject_Z 60000) in
  60000 * w - 30000 <= d < 60000 * w + 30000.
Proof.
  cbv zeta.
  assert (E : inject_Z d / inject_Z 60000 == d # 60000).
  { unfold Qdiv, Qinv, Qmult, Qeq, inject_Z. simpl. lia. }
  unfold Math_round. rewrite (Qfloor_comp _ _ (Qplus_comp _ _ E _ _ (Qeq_refl _))).
  fold (Math_round (d # 60000)). rewrite Math_round_fraction.
  pose proof (Z.div_mod (2 * d + 60000) (2 * 60000) ltac:(lia)) as Hdm.
  pose proof (Z.mod_pos_bound (2 * d + 60000) (2 * 60000) ltac:(lia)) as Hb.
  change (Z.pos 60000) with 60000. lia.
Qed.

(** *** Advancing an entry *)

Lemma getDailyStats_totals env db :
  exists s, getDailyStats env db = (db, Returns s) /\
    totalServed s = from_option totalServed 0 (daily db !! today env) /\
    totalPeople s = from_option totalPeople 0 (daily db !! today env).
Proof.
  unfold getDailyStats. run.
  destruct (daily db !! today env); eexists; repeat split; reflexivity.
Qed.

(** C2.  On a database that the service has led to, with the entry found in
    waiting or in serving: after [updateQueueStatus(id, "completed")] the
    statistics of the day report one more party served and as many more
    people as the party of the entry has, and after
    [updateQueueStatus(id, "skipped")] they report the same two totals as
    before. *)
Theorem completed_counts_skipped_does_not db queueId env e loc s0 :
  reachable db ->
  locate db queueId = Some (e, loc) ->
  getDailyStats env db = (db, Returns s0) ->
  (exists db' s1,
     updateQueueStatus queueId "completed" env db = (db', Returns tt) /\
     getDailyStats env db' = (db', Returns s1) /\
     totalServed s1 = totalServed s0 + 1 /\
     totalPeople s1 = totalPeople s0 + partySize e) /\
  (exists db' s1,
     updateQueueStatus queueId "skipped" env db = (db', Returns tt) /\
     getDailyStats env db' = (db', Returns s1) /\
     totalServed s1 = totalServed s0 /\
     totalPeople s1 = totalPeople s0).
Proof.
  intros Hreach Hloc Hs0.
  destruct (reachable_well_formed _ Hreach) as (Hw & Hs & Hd & _).
  assert (He : 1 <= partySize e).
  { apply locate_Some in Hloc. destruct loc; [ eauto | destruct Hloc; eauto ]. }
  destruct (getDailyStats_totals env db) as (s & Hs0' & Hserved & Hpeople).
  rewrite Hs0 in Hs0'. injection Hs0' as <-.
  assert (Hnonneg : 0 <= totalServed s0).
  { rewrite Hserved. destruct (daily db !! today env) eqn:E; simpl; [ eauto | lia ]. }
  assert (Hd2 : forall x, daily (with_archived x
             match loc with
             | InWaiting => with_waiting (delete queueId (waiting db)) db
             | InServing => with_serving (delete queueId (serving db)) db
             end) = daily db) by (intros; destruct loc; reflexivity).
  split.
  - rewrite (updateQueueStatus_archive _ "completed" _ _ _ _ (or_introl eq_refl) Hloc).
    cbv zeta.
    match goal with
    | |- context [updateDailyStats ?s ?p ?w ?env ?db2] =>
        destruct (updateDailyStats_effect s p w env db2)
          as (db' & -> & _ & _ & _ & _ & _ & _ & Hdone)
    end.
    rewrite Hd2 in Hdone. cbv zeta in Hdone.
    destruct (Hdone eq_refl) as [[Hz _] | [_ (s' & Hs' & H1 & H2)]]; [ lia | ].
    destruct (getDailyStats_totals env db') as (s1 & Hs1 & Hserved1 & Hpeople1).
    exists db', s1. rewrite Hs' in Hserved1, Hpeople1. simpl in *.
    rewrite orZ_nonzero in H2 by lia.
    repeat split; [ assumption | lia | lia ].
  - rewrite (updateQueueStatus_archive _ "skipped" _ _ _ _ (or_intror eq_refl) Hloc).
    cbv zeta.
    match goal with
    | |- context [updateDailyStats ?s ?p ?w ?env ?db2] =>
        destruct (updateDailyStats_effect s p w env db2)
          as (db' & -> & _ & _ & _ & _ & _ & Hskip & _)
    end.
    rewrite Hd2 in Hskip. cbv zeta in Hskip.
    destruct (getDailyStats_totals env db') as (s1 & Hs1 & Hserved1 & Hpeople1).
    exists db', s1.
    destruct (Hskip ltac:(discriminate)) as [E | (s' & Hs' & H1 & H2)].
    + rewrite E in Hserved1, Hpeople1. repeat split; [ assumption | lia | lia ].
    + rewrite Hs' in Hserved1, Hpeople1. simpl in *.
      repeat split; [ assumption | lia | lia ].
Qed.

(** C3.  A target status other than "serving", "completed" and "skipped"
    makes [updateQueueStatus] throw the error of an invalid transition; one
    of these three with an id that is neither in waiting nor in serving
    makes it throw the error of an entry not found.  In both cases the
    database is left as it was. *)
Theorem advance_failures_change_nothing queueId newStatus env db :
  (newStatus <> "serving" -> newStatus <> "completed" ->
   newStatus <> "skipped" ->
   exists err,
     updateQueueStatus queueId newStatus env db = (db, Throws err) /\
     classify err = InvalidTransitionError /\
     error_message err = "Invalid status: " +:+ newStatus) /\
  (newStatus = "serving" \/ newStatus = "completed" \/ newStatus = "skipped" ->
   waiting db !! queueId = None -> serving db !! queueId = None ->
   exists err,
     updateQueueStatus queueId newStatus env db = (db, Throws err) /\
     classify err = NotFoundError /\
     error_message err = "Queue entry not found in waiting or serving").
Proof.
  split.
  - intros H1 H2 H3. exists (InvalidStatus newStatus).
    split; [ | split; reflexivity ].
    apply updateQueueStatus_invalid. rewrite allowed_status. tauto.
  - intros Hv Hw Hs. exists NotInWaitingOrServing.
    split; [ | split; reflexivity ].
    apply updateQueueStatus_unfound; [ now apply allowed_status | ].
    unfold locate. now rewrite Hw, Hs.
Qed.

(** C10.  [updateQueueStatus(id, "serving")] on an entry that is in serving
    (and not in waiting) returns without an error and leaves the database,
    hence every partition and every field of the entry, as it was. *)
Theorem advance_serving_twice_is_silent queueId env db e :
  waiting db !! queueId = None ->
  serving db !! queueId = Some e ->
  updateQueueStatus queueId "serving" env db = (db, Returns tt).
Proof.
  intros Hw Hs.
  rewrite (updateQueueStatus_serving queueId env db e InServing);
    [ reflexivity | ].
  unfold locate. now rewrite Hw, Hs.
Qed.

Lemma reachable_alice_serving : reachable alice_serving.
Proof. repeat constructor. Qed.

(** Alice, at her table, is marked completed, or else skipped. *)
Lemma alice_completed_or_skipped :
  (exists db' s1,
     updateQueueStatus "-Na" "completed" (at_time 900000 "") alice_serving =
       (db', Returns tt) /\
     getDailyStats (at_time 900000 "") db' = (db', Returns s1) /\
     totalServed s1 = 0 + 1 /\ totalPeople s1 = 0 + 2) /\
  (exists db' s1,
     updateQueueStatus "-Na" "skipped" (at_time 900000 "") alice_serving =
       (db', Returns tt) /\
     getDailyStats (at_time 900000 "") db' = (db', Returns s1) /\
     totalServed s1 = 0 /\ totalPeople s1 = 0).
Proof.
  apply (completed_counts_skipped_does_not alice_serving "-Na"
           (at_time 900000 "") alice_at_table InServing
           {| totalServed := 0; totalPeople := 0; totalWaitTime := None;
              avgWaitTime := Some (Finite 0); lastUpdated := Some 900000 |}).
  - exact reachable_alice_serving.
  - reflexivity.
  - reflexivity.
Defined.

(** A status that does not exist, and an id that nobody has. *)
Lemma advance_failures_at_the_restaurant :
  (exists err,
     updateQueueStatus "-Na" "waiting" (at_time 900000 "") alice_serving =
       (alice_serving, Throws err) /\
     classify err = InvalidTransitionError /\
     error_message err = "Invalid status: waiting") /\
  (exists err,
     updateQueueStatus "-Nz" "completed" (at_time 900000 "") alice_serving =
       (alice_serving, Throws err) /\
     classify err = NotFoundError /\
     error_message err = "Queue entry not found in waiting or serving").
Proof.
  split.
  - apply (proj1 (advance_failures_change_nothing "-Na" "waiting"
                    (at_time 900000 "") alice_serving)); discriminate.
  - apply (proj2 (advance_failures_change_nothing "-Nz" "completed"
                    (at_time 900000 "") alice_serving));
      [ right; left; reflexivity | reflexivity | reflexivity ].
Defined.

(** Alice is called a second time. *)
Lemma alice_called_twice :
  updateQueueStatus "-Na" "serving" (at_time 200000 "") alice_serving =
    (alice_serving, Returns tt).
Proof.
  apply (advance_serving_twice_is_silent "-Na" (at_time 200000 "")
           alice_serving alice_at_table); reflexivity.
Defined.

(** *** The wait that the archive records *)

Lemma wait_minutes_minutes_waited (e : Entry) :
  wait_minutes e = minutes_waited e.
Proof.
  unfold wait_minutes, minutes_waited, truthyZ.
  destruct (servedAt e) as [s|]; [ | reflexivity ].
  destruct (Z.eqb_spec (createdAt e) 0), (Z.eqb_spec s 0); simpl;
    case_decide; try tauto; try lia.
  apply minutes_rounded.
Qed.

(** C7, as the service has it.  Every archived entry carries the status it
    was archived with, "completed" or "skipped", and a wait: the difference
    of [servedAt] and [createdAt] divided by 60000 and rounded to the
    nearest minute when the entry has both timestamps and none is zero, and
    0 otherwise.  The wait is written on the move to the archive, for
    "skipped" as for "completed"; the move to serving writes none. *)
Theorem archive_records_rounded_wait db :
  reachable db ->
  (forall k a, archived db !! k = Some a ->
     (status a = Some "completed" \/ status a = Some "skipped") /\
     waitTime a = Some (minutes_waited a) /\
     (forall s, servedAt a = Some s -> createdAt a <> 0 -> s <> 0 ->
        let w := minutes_waited a in
        w = Math_round (inject_Z (s - createdAt a) / inject_Z 60000) /\
        60000 * w - 30000 <= s - createdAt a < 60000 * w + 30000)) /\
  (forall queueId newStatus env e loc,
     locate db queueId = Some (e, loc) ->
     newStatus = "completed" \/ newStatus = "skipped" ->
     exists a,
       archived (updateQueueStatus queueId newStatus env db).1 !! queueId
         = Some a /\
       status a = Some newStatus /\
       waitTime a = Some (minutes_waited e)) /\
  (forall queueId env e,
     waiting db !! queueId = Some e ->
     exists e',
       serving (updateQueueStatus queueId "serving" env db).1 !! queueId
         = Some e' /\
       waitTime e' = waitTime e).
Proof.
  intros Hreach.
  destruct (reachable_well_formed _ Hreach) as (_ & _ & _ & Ha).
  split; [ | split ].
  - intros k a Hk. destruct (Ha _ _ Hk) as [Hw Hst].
    split; [ assumption | ].
    split; [ now rewrite Hw, wait_minutes_minutes_waited | ].
    intros s Hs Hc Hs0. cbv zeta. unfold minutes_waited. rewrite Hs.
    rewrite decide_True by tauto.
    split; [ reflexivity | apply minutes_nearest ].
  - intros queueId newStatus env e loc Hloc Hv.
    rewrite (updateQueueStatus_archive _ _ _ _ _ _ Hv Hloc). cbv zeta.
    match goal with
    | |- context [updateDailyStats ?s ?p ?w ?env ?db2] =>
        destruct (updateDailyStats_effect s p w env db2)
          as (db' & -> & _ & _ & Ea & _)
    end.
    simpl. rewrite Ea.
    eexists. split; [ destruct loc; apply lookup_insert_eq | ].
    split; [ reflexivity | ]. simpl.
    now rewrite wait_minutes_minutes_waited.
  - intros queueId env e Hw.
    rewrite (updateQueueStatus_serving queueId env db e InWaiting)
      by (unfold locate; now rewrite Hw).
    simpl. eexists. split; [ apply lookup_insert_eq | reflexivity ].
Qed.

Lemma reachable_alice_completed : reachable alice_completed.
Proof. repeat constructor. Qed.

(** The archive after Alice is done: she waited 180000 ms, three minutes. *)
Lemma alice_waited_three_minutes :
  archived alice_completed !! "-Na" = Some alice_archived /\
  waitTime alice_archived = Some 3 /\
  60000 * 3 - 30000 <= 181000 - 1000 < 60000 * 3 + 30000.
Proof.
  split; [ reflexivity | ].
  destruct (proj1 (archive_records_rounded_wait alice_completed
                     reachable_alice_completed) "-Na" alice_archived eq_refl)
    as (_ & Hw & Hb).
  split; [ exact Hw | ].
  exact (proj2 (Hb 181000 eq_refl ltac:(discriminate) ltac:(discriminate))).
Defined.

(** A wait is recorded for an entry that is skipped, too: Alice, called
    three minutes after she joined and then skipped, is archived with a wait
    of 3 although she was never completed.  And Bob, completed straight from
    the line, is archived with a wait of 0 and no [servedAt] to compute it
    from. *)
Lemma skipped_entry_records_wait :
  (exists a,
     archived alice_serving !! "-Na" = None /\
     archived
       (updateQueueStatus "-Na" "skipped" (at_time 900000 "") alice_serving).1
       !! "-Na" = Some a /\
     status a = Some "skipped" /\
     waitTime a = Some 3) /\
  (exists a,
     archived
       (updateQueueStatus "-Nb" "completed" (at_time 900000 "") alice_serving).1
       !! "-Nb" = Some a /\
     status a = Some "completed" /\
     servedAt a = None /\
     waitTime a = Some 0).
Proof.
  split; eexists.
  - split; [ reflexivity | ].
    split; [ vm_compute; reflexivity | split; reflexivity ].
  - split; [ vm_compute; reflexivity | repeat split ].
Qed.

(** *** Swapping two positions *)

Lemma set_position_same e : set_position (position e) e = e.
Proof. now destruct e. Qed.

Lemma differ_only_in_position_set p e :
  differ_only_in_position e (set_position p e).
Proof. repeat split. Qed.

Lemma with_waiting_same db : with_waiting (waiting db) db = db.
Proof. now destruct db. Qed.

Lemma with_waiting_twice w w' db :
  with_waiting w (with_waiting w' db) = with_waiting w db.
Proof. reflexivity. Qed.

(** The waiting partition after a swap, entry by entry. *)
Lemma lookup_swapped (w : gmap string Entry) a b ea eb k :
  w !! a = Some ea -> w !! b = Some eb ->
  update_position b (position ea) (update_position a (position eb) w) !! k =
    if decide (k = b) then Some (set_position (position ea) eb)
    else if decide (k = a) then Some (set_position (position eb) ea)
    else w !! k.
Proof.
  intros Ha Hb. unfold update_position. rewrite !lookup_alter.
  repeat case_decide; subst; try congruence.
  - rewrite Ha in Hb. injection Hb as ->. rewrite Ha. reflexivity.
  - rewrite Hb. reflexivity.
  - rewrite Ha. reflexivity.
Qed.

(** C4.  With both entries in the waiting partition, [reorderQueues(a, b)]
    gives [a] the position that [b] had and [b] the one that [a] had, and
    changes no other field of the two, no other entry and nothing outside
    the waiting partition; doing it twice gives back the database one
    started from.  With one of the two missing from the waiting partition it
    throws the error of an entry not found. *)
Theorem reorder_swaps_positions db a b :
  (forall ea eb,
     waiting db !! a = Some ea -> waiting db !! b = Some eb ->
     exists db' ea' eb',
       reorderQueues a b db = (db', Returns tt) /\
       waiting db' !! a = Some ea' /\ waiting db' !! b = Some eb' /\
       position ea' = position eb /\ position eb' = position ea /\
       differ_only_in_position ea ea' /\ differ_only_in_position eb eb' /\
       (forall k, k <> a -> k <> b -> waiting db' !! k = waiting db !! k) /\
       serving db' = serving db /\ archived db' = archived db /\
       daily db' = daily db /\ monthly db' = monthly db /\
       averageServingTime db' = averageServingTime db /\
       reorderQueues a b db' = (db, Returns tt)) /\
  (waiting db !! a = None \/ waiting db !! b = None ->
   exists err,
     reorderQueues a b db = (db, Throws err) /\ classify err = NotFoundError).
Proof.
  split.
  - intros ea eb Ha Hb.
    destruct (reorderQueues_cases a b db)
      as [[_ [H|H]] | (d1 & d2 & H1 & H2 & Hrun)]; try congruence.
    rewrite Ha in H1. rewrite Hb in H2.
    injection H1 as <-. injection H2 as <-.
    set (w' := update_position b (position ea)
                 (update_position a (position eb) (waiting db))) in *.
    assert (Hw' : forall k, w' !! k =
      if decide (k = b) then Some (set_position (position ea) eb)
      else if decide (k = a) then Some (set_position (position eb) ea)
      else waiting db !! k) by (intros k; now apply lookup_swapped).
    assert (Hwa : exists ea', w' !! a = Some ea' /\
                    position ea' = position eb /\
                    differ_only_in_position ea ea').
    { rewrite Hw'. case_decide as E.
      - subst b. rewrite Ha in Hb. injection Hb as <-.
        eexists. split; [ reflexivity | ].
        split; [ reflexivity | apply differ_only_in_position_set ].
      - rewrite decide_True by reflexivity.
        eexists. split; [ reflexivity | ].
        split; [ reflexivity | apply differ_only_in_position_set ]. }
    assert (Hwb : w' !! b = Some (set_position (position ea) eb))
      by (rewrite Hw'; now rewrite decide_True).
    destruct Hwa as (ea' & Hwa & Hpa & Hda).
    exists (with_waiting w' db), ea', (set_position (position ea) eb).
    split; [ exact Hrun | ]. simpl.
    split; [ exact Hwa | ]. split; [ exact Hwb | ].
    split; [ exact Hpa | ]. split; [ reflexivity | ].
    split; [ exact Hda | ]. split; [ apply differ_only_in_position_set | ].
    split; [ intros k Hka Hkb; rewrite Hw'; now rewrite !decide_False | ].
    do 5 (split; [ reflexivity | ]).
    (* once more *)
    destruct (reorderQueues_cases a b (with_waiting w' db))
      as [[_ [H|H]] | (d1 & d2 & H1 & H2 & ->)];
      simpl in *; try congruence.
    rewrite Hwa in H1. rewrite Hwb in H2.
    injection H1 as <-. injection H2 as <-.
    f_equal. rewrite with_waiting_twice.
    transitivity (with_waiting (waiting db) db); [ | apply with_waiting_same ].
    f_equal. apply map_eq. intros k.
    rewrite (lookup_swapped _ _ _ _ _ k Hwa Hwb). simpl.
    rewrite Hpa. repeat case_decide; subst.
    + rewrite Hb. f_equal. now destruct eb.
    + rewrite Ha. f_equal.
      destruct Hda as (? & ? & ? & ? & ? & ? & ? & ? & ?).
      destruct ea, ea'; unfold set_position; simpl in *; congruence.
    + rewrite Hw'. now rewrite !decide_False.
  - intros Hmiss.
    destruct (reorderQueues_cases a b db)
      as [[-> _] | (d1 & d2 & H1 & H2 & _)].
    + exists NotInWaitingQueue. split; reflexivity.
    + destruct Hmiss; congruence.
Qed.

(** Bob is let in before Alice. *)
Lemma bob_before_alice :
  exists db' alice bob,
    reorderQueues "-Na" "-Nb" bob_joined = (db', Returns tt) /\
    waiting db' !! "-Na" = Some alice /\ waiting db' !! "-Nb" = Some bob /\
    position alice = 2 /\ position bob = 1 /\
    reorderQueues "-Na" "-Nb" db' = (bob_joined, Returns tt).
Proof.
  destruct (proj1 (reorder_swaps_positions bob_joined "-Na" "-Nb")
              alice_in_line bob_in_line eq_refl eq_refl)
    as (db' & ea' & eb' & H1 & H2 & H3 & H4 & H5 & _ & _ & _ & _ & _ & _ & _ & _ & H6).
  exists db', ea', eb'. repeat split; assumption.
Defined.

(** *** The rank in the line *)

Local Instance key_le_transitive {A} : Transitive (@key_le A).
Proof. intros x y z. unfold key_le. apply transitivity. Qed.

Local Instance key_le_total {A} : Total (@key_le A).
Proof. intros x y. unfold key_le. apply total, _. Qed.

Lemma entries_sorted {A} (m : gmap string A) :
  StronglySorted key_le (entries m).
Proof. apply StronglySorted_merge_sort; apply _. Qed.

Lemma insert_by_position_perm x l : insert_by_position x l ≡ₚ x :: l.
Proof.
  induction l as [|y l IH]; simpl; [ reflexivity | ].
  destruct (position x.2 <=? position y.2); [ reflexivity | ].
  rewrite IH. apply Permutation_swap.
Qed.

Lemma sort_by_position_perm l : sort_by_position l ≡ₚ l.
Proof.
  induction l as [|x l IH]; simpl; [ reflexivity | ].
  rewrite insert_by_position_perm. now rewrite IH.
Qed.

Lemma insert_by_position_sorted x s :
  StronglySorted before s ->
  Forall (fun y => String.le x.1 y.1) s ->
  StronglySorted before (insert_by_position x s).
Proof.
  induction 1 as [|y s Hs IH Hy]; intros Hkeys; simpl.
  - repeat constructor.
  - inversion Hkeys as [|? ? Hxy Hkeys']; subst.
    destruct (Z.leb_spec (position x.2) (position y.2)) as [Hle|Hgt].
    + constructor; [ now constructor | ].
      assert (Hxy' : before x y).
      { destruct (decide (position x.2 = position y.2));
          [ right; split; assumption | left; lia ]. }
      constructor; [ exact Hxy' | ].
      rewrite List.Forall_forall in Hy, Hkeys' |- *.
      intros z Hz. specialize (Hy z Hz). specialize (Hkeys' z Hz).
      assert (Hxz : position x.2 <= position z.2)
        by (destruct Hy as [?|[? _]]; lia).
      destruct (decide (position x.2 = position z.2));
        [ right; split; assumption | left; lia ].
    + constructor; [ now apply IH | ].
      rewrite insert_by_position_perm.
      constructor; [ unfold before; lia | assumption ].
Qed.

Lemma sort_by_position_sorted l :
  StronglySorted key_le l -> StronglySorted before (sort_by_position l).
Proof.
  induction 1 as [|x l Hl IH Hx]; simpl; [ constructor | ].
  apply insert_by_position_sorted; [ assumption | ].
  now rewrite sort_by_position_perm.
Qed.

Lemma findIndex_from_found {A} (p : A -> bool) (i : Z) (xs : list A) :
  (exists x, x ∈ xs /\ p x = true) ->
  exists n x, findIndex_from p i xs = i + Z.of_nat n /\
              xs !! n = Some x /\ p x = true.
Proof.
  revert i. induction xs as [|y xs IH]; intros i (x & Hx & Hp).
  - now apply elem_of_nil in Hx.
  - simpl. destruct (p y) eqn:Hy.
    + exists 0%nat, y. split; [ lia | split; [ reflexivity | assumption ] ].
    + apply elem_of_cons in Hx as [-> | Hx]; [ congruence | ].
      destruct (IH (i + 1) (ex_intro _ x (conj Hx Hp))) as (n & z & E & Hn & Hz).
      exists (S n), z. split; [ lia | split; assumption ].
Qed.

Lemma findIndex_from_missing {A} (p : A -> bool) (i : Z) (xs : list A) :
  (forall x, x ∈ xs -> p x = false) -> findIndex_from p i xs = -1.
Proof.
  revert i. induction xs as [|y xs IH]; intros i Hall; simpl; [ reflexivity | ].
  rewrite (Hall y) by left. apply IH. intros x Hx. apply Hall. now right.
Qed.

Lemma getQueuePosition_waiting queueId db e :
  waiting db !! queueId = Some e ->
  exists n sorted,
    getQueuePosition queueId db = (db, Returns (Z.of_nat (S n))) /\
    sorted ≡ₚ map_to_list (waiting db) /\
    StronglySorted before sorted /\
    sorted !! n = Some (queueId, e).
Proof.
  intros Hw. unfold getQueuePosition. run.
  assert (Hex : exists_ (waiting db) = true).
  { apply exists_true. intros E. rewrite E, lookup_empty in Hw. discriminate. }
  rewrite Hex. simpl.
  set (sorted := sort_by_position (entries (waiting db))).
  assert (Hperm : sorted ≡ₚ entries (waiting db))
    by apply sort_by_position_perm.
  destruct (findIndex_from_found (fun q => (q.1 =? queueId)%string) 0 sorted)
    as (n & x & E & Hn & Hx).
  { exists (queueId, e). split; [ | apply String.eqb_refl ].
    rewrite Hperm. now apply elem_of_entries. }
  apply String.eqb_eq in Hx.
  assert (Hxe : x = (queueId, e)).
  { destruct x as [k e']. simpl in Hx. subst k. f_equal.
    apply list_elem_of_lookup_2 in Hn. rewrite Hperm in Hn.
    apply elem_of_entries in Hn. congruence. }
  subst x. unfold findIndex. rewrite E.
  exists n, sorted.
  split.
  - destruct (Z.ltb_spec 0 (0 + Z.of_nat n + 1)); [ | lia ].
    do 2 f_equal. lia.
  - split; [ now rewrite Hperm, entries_perm | ].
    split; [ apply sort_by_position_sorted, entries_sorted | assumption ].
Qed.

Lemma getQueuePosition_elsewhere queueId db :
  waiting db !! queueId = None ->
  getQueuePosition queueId db = (db, Returns 0).
Proof.
  intros Hw. unfold getQueuePosition. run.
  destruct (exists_ (waiting db)); [ | reflexivity ]. simpl.
  unfold findIndex. rewrite findIndex_from_missing; [ reflexivity | ].
  intros [k e] Hin. simpl.
  rewrite sort_by_position_perm in Hin. apply elem_of_entries in Hin.
  apply String.eqb_neq. congruence.
Qed.

Lemma getEstimatedWaitTime_returns db :
  exists t, getEstimatedWaitTime db = (db, Returns t).
Proof.
  unfold getEstimatedWaitTime. run.
  destruct (exists_ (waiting db)); eexists; reflexivity.
Qed.

(** C5.  [getQueueStatus(id)] for an entry of the waiting partition returns
    it with [position] set to its rank, counted from 1, in the waiting
    entries put in the order of the line (ascending stored position); for an
    entry that is in serving and not in waiting it returns it with
    [position] 0; for an id in neither partition it throws the error of an
    entry not found.  It never changes the database. *)
Theorem getQueueStatus_reports_rank queueId db :
  (forall e, waiting db !! queueId = Some e ->
     exists r sorted,
       getQueueStatus queueId db = (db, Returns r) /\
       id r = queueId /\
       differ_only_in_position e (data r) /\
       1 <= position (data r) /\
       sorted ≡ₚ map_to_list (waiting db) /\
       StronglySorted before sorted /\
       sorted !! Z.to_nat (position (data r) - 1) = Some (queueId, e)) /\
  (forall e, waiting db !! queueId = None -> serving db !! queueId = Some e ->
     exists r,
       getQueueStatus queueId db = (db, Returns r) /\
       id r = queueId /\
       differ_only_in_position e (data r) /\
       position (data r) = 0) /\
  (waiting db !! queueId = None -> serving db !! queueId = None ->
   exists err,
     getQueueStatus queueId db = (db, Throws err) /\
     classify err = NotFoundError).
Proof.
  split; [ | split ].
  - intros e Hw.
    destruct (getQueuePosition_waiting queueId db e Hw)
      as (n & sorted & Hpos & Hperm & Hsorted & Hn).
    destruct (getEstimatedWaitTime_returns db) as (t & Ht).
    unfold getQueueStatus. run. rewrite Hw. simpl.
    unfold bind. rewrite Hpos, Ht. simpl.
    eexists; exists sorted. split; [ reflexivity | ]. simpl.
    split; [ reflexivity | ].
    split; [ apply differ_only_in_position_set | ].
    split; [ lia | ].
    split; [ assumption | split; [ assumption | ] ].
    replace (Z.to_nat (Z.of_nat (S n) - 1)) with n by lia.
    assumption.
  - intros e Hw Hs.
    destruct (getEstimatedWaitTime_returns db) as (t & Ht).
    unfold getQueueStatus. run. rewrite Hw. simpl. rewrite Hs.
    unfold bind. rewrite (getQueuePosition_elsewhere _ _ Hw), Ht. simpl.
    eexists. split; [ reflexivity | ]. simpl.
    split; [ reflexivity | ].
    split; [ apply differ_only_in_position_set | reflexivity ].
  - intros Hw Hs. unfold getQueueStatus. run. rewrite Hw. simpl. rewrite Hs.
    exists EntryNotFound. split; reflexivity.
Qed.

(** Bob is first in the line, Alice is at her table, nobody is "-Nz". *)
Lemma bob_first_alice_served :
  (exists r sorted,
     getQueueStatus "-Nb" alice_serving = (alice_serving, Returns r) /\
     id r = "-Nb" /\
     differ_only_in_position bob_in_line (data r) /\
     1 <= position (data r) /\
     sorted ≡ₚ map_to_list (waiting alice_serving) /\
     StronglySorted before sorted /\
     sorted !! Z.to_nat (position (data r) - 1) = Some ("-Nb", bob_in_line)) /\
  (exists r,
     getQueueStatus "-Na" alice_serving = (alice_serving, Returns r) /\
     id r = "-Na" /\
     differ_only_in_position alice_at_table (data r) /\
     position (data r) = 0) /\
  (exists err,
     getQueueStatus "-Nz" alice_serving = (alice_serving, Throws err) /\
     classify err = NotFoundError).
Proof.
  split; [ | split ].
  - apply (proj1 (getQueueStatus_reports_rank "-Nb" alice_serving)).
    reflexivity.
  - apply (proj1 (proj2 (getQueueStatus_reports_rank "-Na" alice_serving)));
      reflexivity.
  - apply (proj2 (proj2 (getQueueStatus_reports_rank "-Nz" alice_serving)));
      reflexivity.
Defined.

(** *** Searching by phone *)

Lemma phone_matches_answers term e :
  trim term <> "" ->
  phone_matches (normalized term) e = true <-> answers term e.
Proof.
  intros Hterm. apply truthy_neq in Hterm.
  assert (Hclean : truthy (normalized term) = true)
    by (unfold normalized; now rewrite toLowerCase_truthy).
  unfold phone_matches, answers. fold (normalized (phone e)).
  destruct (truthy (phone e)) eqn:Hp; simpl.
  - rewrite orb_true_iff, !String.eqb_eq. reflexivity.
  - split; [ discriminate | ].
    destruct (phone e); [ | discriminate ].
    change (normalized "") with "".
    intros [H | H]; exfalso.
    + rewrite <- H in Hclean. discriminate.
    + apply slice_last_truthy in Hclean. rewrite <- H in Hclean. discriminate.
Qed.

Lemma find_first {A} (p : A -> bool) (l : list A) (x : A) :
  List.find p l = Some x ->
  exists l1 l2, l = (l1 ++ x :: l2)%list /\ p x = true /\
                forall y, y ∈ l1 -> p y = false.
Proof.
  induction l as [|y l IH]; simpl; [ discriminate | ].
  destruct (p y) eqn:Hy.
  - intros [= ->]. exists [], l. split; [ reflexivity | ].
    split; [ assumption | ]. intros z Hz. now apply elem_of_nil in Hz.
  - intros H. destruct (IH H) as (l1 & l2 & -> & Hx & Hl1).
    exists (y :: l1), l2. split; [ reflexivity | ].
    split; [ assumption | ].
    intros z Hz. apply elem_of_cons in Hz as [-> | Hz]; auto.
Qed.

Lemma find_nothing {A} (p : A -> bool) (l : list A) :
  List.find p l = None -> forall y, y ∈ l -> p y = false.
Proof.
  intros H y Hy. apply list_elem_of_In in Hy.
  exact (List.find_none p l H y Hy).
Qed.

Lemma scan_first clean (m : gmap string Entry) k e :
  scan clean m = Some (k, e) ->
  m !! k = Some e /\ phone_matches clean e = true /\
  forall k' e', m !! k' = Some e' -> phone_matches clean e' = true ->
                String.le k k'.
Proof.
  unfold scan. destruct (exists_ m); [ | discriminate ].
  intros H. apply find_first in H as (l1 & l2 & Hl & Hp & Hl1).
  simpl in Hp.
  assert (Hin : forall k' e', m !! k' = Some e' <-> (k', e') ∈ (l1 ++ (k, e) :: l2)%list)
    by (intros; rewrite <- Hl; symmetry; apply elem_of_entries).
  split; [ apply Hin, elem_of_app; right; left | ].
  split; [ assumption | ].
  intros k' e' Hk' Hp'. apply Hin in Hk'.
  apply elem_of_app in Hk' as [Hk' | Hk'].
  - apply Hl1 in Hk'. simpl in Hk'. congruence.
  - apply elem_of_cons in Hk' as [[= -> ->] | Hk']; [ reflexivity | ].
    pose proof (entries_sorted m) as Hs. rewrite Hl in Hs.
    apply StronglySorted_app_1_r, StronglySorted_cons in Hs.
    destruct Hs as [Hs _]. rewrite List.Forall_forall in Hs.
    apply list_elem_of_In in Hk'. exact (Hs _ Hk').
Qed.

Lemma scan_nothing clean (m : gmap string Entry) :
  scan clean m = None ->
  forall k e, m !! k = Some e -> phone_matches clean e = false.
Proof.
  unfold scan. destruct (exists_ m) eqn:Hex.
  - intros H k e Hk. apply elem_of_entries in Hk.
    exact (find_nothing _ _ H _ Hk).
  - apply exists_false in Hex. subst m.
    intros _ k e. rewrite lookup_empty. discriminate.
Qed.

Lemma first_answer_unique term (m : gmap string Entry) k e k' e' :
  first_answer term m k e -> first_answer term m k' e' -> k = k' /\ e = e'.
Proof.
  intros (Hk & Ha & Hfirst) (Hk' & Ha' & Hfirst').
  assert (k = k') as <-.
  { apply (anti_symm String.le); eauto. }
  split; [ reflexivity | congruence ].
Qed.

(** What [scan] finds, in terms of [answers]. *)
Lemma scan_answers term (m : gmap string Entry) :
  trim term <> "" ->
  match scan (normalized term) m with
  | Some (k, e) => first_answer term m k e
  | None => no_answer term m
  end.
Proof.
  intros Hterm. destruct (scan (normalized term) m) as [[k e]|] eqn:Hscan.
  - apply scan_first in Hscan as (Hk & Hp & Hfirst).
    split; [ assumption | ].
    split; [ now apply phone_matches_answers | ].
    intros k' e' Hk' Ha'. apply (Hfirst k' e' Hk').
    now apply phone_matches_answers.
  - intros k e Hk Ha. apply phone_matches_answers in Ha; [ | assumption ].
    rewrite (scan_nothing _ _ Hscan _ _ Hk) in Ha. discriminate.
Qed.

(** C6, as the service has it.  [searchQueueByPhone] refuses an empty or
    blank term with a validation error.  Otherwise it trims the term and
    puts it in lower case, reads the waiting partition and then the serving
    one, each in key order, and returns the first entry whose stored phone,
    trimmed and put in lower case as well, is equal to the term or has the
    same last 7 characters; when no entry of the two partitions is such, it
    throws the error of an entry not found.  It never changes the
    database. *)
Theorem search_compares_normalized_phones phone db :
  (trim phone = "" ->
   exists err,
     searchQueueByPhone phone db = (db, Throws err) /\
     classify err = ValidationError) /\
  (trim phone <> "" ->
   (forall k e,
      first_answer phone (waiting db) k e ->
      searchQueueByPhone phone db =
        (db, Returns (k, with_status "waiting" e))) /\
   (forall k e,
      no_answer phone (waiting db) ->
      first_answer phone (serving db) k e ->
      searchQueueByPhone phone db =
        (db, Returns (k, with_status "serving" e))) /\
   (no_answer phone (waiting db) -> no_answer phone (serving db) ->
    exists err,
      searchQueueByPhone phone db = (db, Throws err) /\
      classify err = NotFoundError)).
Proof.
  split.
  - intros Hblank. exists EnterPhoneNumber. split; [ | reflexivity ].
    unfold searchQueueByPhone. rewrite Hblank. simpl.
    now rewrite orb_true_r.
  - intros Hterm.
    pose proof (scan_answers phone (waiting db) Hterm) as Hw.
    pose proof (scan_answers phone (serving db) Hterm) as Hs.
    assert (Hrun : searchQueueByPhone phone db =
      match scan (normalized phone) (waiting db) with
      | Some (k, e) => (db, Returns (k, with_status "waiting" e))
      | None =>
          match scan (normalized phone) (serving db) with
          | Some (k, e) => (db, Returns (k, with_status "serving" e))
          | None => (db, Throws NoQueueWithPhone)
          end
      end).
    { unfold searchQueueByPhone. apply truthy_neq in Hterm.
      rewrite Hterm, (trim_truthy _ Hterm). simpl. run.
      fold (normalized phone).
      destruct (scan (normalized phone) (waiting db)) as [[k e]|];
        [ reflexivity | ].
      destruct (scan (normalized phone) (serving db)) as [[k e]|];
        reflexivity. }
    rewrite Hrun. clear Hrun.
    destruct (scan (normalized phone) (waiting db)) as [[kw ew]|].
    + split; [ | split ].
      * intros k e Hfirst.
        destruct (first_answer_unique _ _ _ _ _ _ Hw Hfirst) as [-> ->].
        reflexivity.
      * intros k e Hnone _. destruct Hw as (Hk & Ha & _).
        now destruct (Hnone _ _ Hk).
      * intros Hnone _. destruct Hw as (Hk & Ha & _).
        now destruct (Hnone _ _ Hk).
    + destruct (scan (normalized phone) (serving db)) as [[ks es]|].
      * split; [ | split ].
        -- intros k e (Hk & Ha & _). now destruct (Hw _ _ Hk).
        -- intros k e _ Hfirst.
           destruct (first_answer_unique _ _ _ _ _ _ Hs Hfirst) as [-> ->].
           reflexivity.
        -- intros _ Hnone. destruct Hs as (Hk & Ha & _).
           now destruct (Hnone _ _ Hk).
      * split; [ | split ].
        -- intros k e (Hk & Ha & _). now destruct (Hw _ _ Hk).
        -- intros k e _ (Hk & Ha & _). now destruct (Hs _ _ Hk).
        -- intros _ _. exists NoQueueWithPhone. split; reflexivity.
Qed.

Lemma alice_serving_partitions :
  waiting alice_serving = {[ "-Nb" := bob_in_line ]} /\
  serving alice_serving = {[ "-Na" := alice_at_table ]}.
Proof. split; reflexivity. Qed.

(** Bob is found in the line by the last seven digits of his number, Alice
    at her table by hers; a blank term is refused and a number that nobody
    gave is not found. *)
Lemma search_at_the_restaurant :
  (exists err,
     searchQueueByPhone "   " alice_serving = (alice_serving, Throws err) /\
     classify err = ValidationError) /\
  searchQueueByPhone " 0002222222 " alice_serving =
    (alice_serving, Returns ("-Nb", with_status "waiting" bob_in_line)) /\
  searchQueueByPhone "1111111111" alice_serving =
    (alice_serving, Returns ("-Na", with_status "serving" alice_at_table)) /\
  (exists err,
     searchQueueByPhone "5550000000" alice_serving =
       (alice_serving, Throws err) /\
     classify err = NotFoundError).
Proof.
  destruct alice_serving_partitions as [Ew Es].
  assert (Hnone : forall term,
            ~ answers term bob_in_line -> no_answer term (waiting alice_serving)).
  { intros term H k e. rewrite Ew. intros [_ <-]%lookup_singleton_Some.
    exact H. }
  split; [ | split; [ | split ] ].
  - apply (proj1 (search_compares_normalized_phones "   " alice_serving)).
    reflexivity.
  - apply (proj1 (proj2 (search_compares_normalized_phones " 0002222222 "
                           alice_serving) ltac:(discriminate))).
    split; [ reflexivity | split; [ right; reflexivity | ] ].
    intros k' e'. rewrite Ew. now intros [<- _]%lookup_singleton_Some.
  - apply (proj1 (proj2 (proj2 (search_compares_normalized_phones "1111111111"
                                  alice_serving) ltac:(discriminate)))).
    + apply Hnone. intros [H|H]; vm_compute in H; discriminate H.
    + split; [ reflexivity | split; [ left; reflexivity | ] ].
      intros k' e'. rewrite Es. now intros [<- _]%lookup_singleton_Some.
  - apply (proj2 (proj2 (proj2 (search_compares_normalized_phones "5550000000"
                                  alice_serving) ltac:(discriminate)))).
    + apply Hnone. intros [H|H]; vm_compute in H; discriminate H.
    + intros k e. rewrite Es. intros [_ <-]%lookup_singleton_Some.
      intros [H|H]; vm_compute in H; discriminate H.
Defined.

(** The search does more than trim.  Ann gave "OFFICE-555"; her stored
    phone is neither equal to the trimmed term "office-555" nor has it the
    same last 7 characters, and yet the search returns her entry.  And a
    blank term, which no entry matches, is refused with a validation error,
    not with the error of an entry not found. *)
Lemma search_folds_case_and_refuses_blank :
  (waiting ann_joined = {[ "-Nq" := ann_in_line ]} /\
   serving ann_joined = ∅ /\
   Queue.phone ann_in_line <> trim "office-555" /\
   slice_last 7 (Queue.phone ann_in_line) <> slice_last 7 (trim "office-555") /\
   searchQueueByPhone "office-555" ann_joined =
     (ann_joined, Returns ("-Nq", with_status "waiting" ann_in_line))) /\
  (searchQueueByPhone "   " (initial None) =
     (initial None, Throws EnterPhoneNumber) /\
   classify EnterPhoneNumber <> NotFoundError).
Proof.
  repeat split; (reflexivity || (vm_compute; discriminate)).
Qed.

End QueueFacts.

(** * Further properties of the queue service *)

Module QueueMore.
Import JS Spec More JSFacts Queue Scenario QueueFacts.

Ltac run :=
  unfold bind, read, write, ret, throw; simpl.

(** *** What a call does to the three partitions *)

Lemma updateQueueStatus_partitions queueId newStatus env db :
  let db' := (updateQueueStatus queueId newStatus env db).1 in
  averageServingTime db' = averageServingTime db /\
  ((waiting db' = waiting db /\ serving db' = serving db /\
    archived db' = archived db) \/
   (exists e, waiting db !! queueId = Some e /\
      waiting db' = delete queueId (waiting db) /\
      serving db' = <[queueId := served (now env) e]> (serving db) /\
      archived db' = archived db) \/
   (exists e loc, locate db queueId = Some (e, loc) /\
      (newStatus = "completed" \/ newStatus = "skipped") /\
      waiting db' = match loc with
                    | InWaiting => delete queueId (waiting db)
                    | InServing => waiting db
                    end /\
      serving db' = match loc with
                    | InWaiting => serving db
                    | InServing => delete queueId (serving db)
                    end /\
      archived db' =
        <[queueId := archive newStatus (now env) (wait_minutes e) e]>
          (archived db))).
Proof.
  cbv zeta.
  destruct (decide (newStatus ∈ validStatuses)) as [Hv|Hv];
    [ | rewrite updateQueueStatus_invalid by assumption; simpl; auto ].
  destruct (locate db queueId) as [[e loc]|] eqn:Hloc;
    [ | rewrite updateQueueStatus_unfound by assumption; simpl; auto ].
  apply allowed_status in Hv as [-> | Hv].
  - rewrite (updateQueueStatus_serving _ _ _ _ _ Hloc).
    apply locate_Some in Hloc.
    destruct loc; simpl; [ | auto ].
    split; [ reflexivity | ]. right; left. exists e. auto.
  - rewrite (updateQueueStatus_archive _ _ _ _ _ _ Hv Hloc). cbv zeta.
    match goal with
    | |- context [updateDailyStats ?s ?p ?w ?env ?db2] =>
        destruct (updateDailyStats_effect s p w env db2)
          as (db' & -> & Ew & Es & Ea & Eg & _)
    end.
    simpl. rewrite Ew, Es, Ea, Eg.
    split; [ now destruct loc | ].
    right; right. exists e, loc.
    split; [ reflexivity | ]. split; [ assumption | ].
    destruct loc; simpl; auto.
Qed.

(** *** The estimated wait *)

Lemma getEstimatedWaitTime_value db :
  getEstimatedWaitTime db =
    (db, Returns (Z.of_nat (size (waiting db)) * minutes_per_party db)).
Proof.
  unfold getEstimatedWaitTime, minutes_per_party, or_default, truthyZ. run.
  assert (Havg :
    match averageServingTime db with
    | Some z => if negb (z =? 0) then z else 5
    | None => 5
    end =
    match averageServingTime db with
    | Some a => if decide (a = 0) then 5 else a
    | None => 5
    end).
  { destruct (averageServingTime db) as [a|]; [ | reflexivity ].
    destruct (Z.eqb_spec a 0); case_decide; simpl; congruence. }
  rewrite Havg.
  destruct (exists_ (waiting db)) eqn:Hex.
  - unfold values. now rewrite length_fmap, length_entries.
  - apply exists_false in Hex. rewrite Hex, map_size_empty. reflexivity.
Qed.

(** X1.  The wait that [getQueueStatus] estimates is the number of entries
    of the waiting partition, whatever the place of the entry asked for,
    times the configured minutes per party, which are taken to be 5 when the
    configuration is missing or says 0. *)
Theorem estimate_counts_the_whole_line queueId db :
  is_Some (waiting db !! queueId) \/ is_Some (serving db !! queueId) ->
  exists r,
    getQueueStatus queueId db = (db, Returns r) /\
    estimatedWaitTime r =
      Z.of_nat (size (waiting db)) * minutes_per_party db.
Proof.
  intros Hfound.
  assert (Hpos : exists n, getQueuePosition queueId db = (db, Returns n)).
  { destruct (waiting db !! queueId) as [e|] eqn:Hw.
    - destruct (getQueuePosition_waiting queueId db e Hw) as (n & _ & -> & _).
      eauto.
    - rewrite getQueuePosition_elsewhere by assumption. eauto. }
  destruct Hpos as (n & Hpos).
  unfold getQueueStatus. run.
  destruct (waiting db !! queueId) as [e|] eqn:Hw; simpl.
  - unfold bind. rewrite Hpos, getEstimatedWaitTime_value. simpl.
    eexists. split; reflexivity.
  - destruct Hfound as [[? H]|[e He]]; [ discriminate | ]. rewrite He.
    unfold bind. rewrite Hpos, getEstimatedWaitTime_value. simpl.
    eexists. split; reflexivity.
Qed.

(** Alice, at her table, is told 5 minutes: Bob alone is in the line. *)
Lemma alice_is_told_five_minutes :
  exists r,
    getQueueStatus "-Na" alice_serving = (alice_serving, Returns r) /\
    estimatedWaitTime r = 1 * 5.
Proof.
  apply (estimate_counts_the_whole_line "-Na" alice_serving).
  right. exists alice_at_table. reflexivity.
Defined.

(** *** Leaving the queue *)

(** X2.  [deleteQueueEntry] never throws; it removes the id from the waiting
    and from the serving partition and touches nothing else, neither another
    entry nor the archive nor the statistics.  Afterwards
    [getQueueStatus] and [updateQueueStatus] on that id fail with the error
    of an entry not found, and deleting once more changes nothing. *)
Theorem delete_removes_from_waiting_and_serving queueId db :
  exists db',
    deleteQueueEntry queueId db = (db', Returns tt) /\
    waiting db' = delete queueId (waiting db) /\
    serving db' = delete queueId (serving db) /\
    archived db' = archived db /\ daily db' = daily db /\
    monthly db' = monthly db /\
    averageServingTime db' = averageServingTime db /\
    getQueueStatus queueId db' = (db', Throws EntryNotFound) /\
    (forall env,
       updateQueueStatus queueId "completed" env db' =
         (db', Throws NotInWaitingOrServing)) /\
    deleteQueueEntry queueId db' = (db', Returns tt).
Proof.
  unfold deleteQueueEntry. run. eexists. split; [ reflexivity | ]. simpl.
  do 6 (split; [ reflexivity | ]).
  split; [ | split ].
  - unfold getQueueStatus. run.
    rewrite lookup_delete_eq. simpl. rewrite lookup_delete_eq. reflexivity.
  - intros env. apply updateQueueStatus_unfound.
    + apply allowed_status. auto.
    + unfold locate. simpl. now rewrite !lookup_delete_eq.
  - unfold with_serving, with_waiting. simpl.
    now rewrite !delete_delete_eq.
Qed.

(** X3.  Joining and then leaving gives back the database: when the key that
    [push] generates is new to the waiting and to the serving partition,
    [deleteQueueEntry] on the key that an accepted [joinQueue] returned
    restores the database in which the call was made. *)
Theorem join_then_delete_restores name partySize phone env db :
  trim name <> "" -> trim phone <> "" -> 1 <= partySize ->
  waiting db !! pushKey env = None -> serving db !! pushKey env = None ->
  exists db',
    joinQueue name partySize phone env db = (db', Returns (pushKey env)) /\
    is_Some (waiting db' !! pushKey env) /\
    deleteQueueEntry (pushKey env) db' = (db, Returns tt).
Proof.
  intros Hn Hp Hs Hw Hsv.
  destruct (joinQueue_accepts name partySize phone env db Hn Hp Hs)
    as (e & -> & _).
  eexists. split; [ reflexivity | ]. simpl.
  split; [ rewrite lookup_insert_eq; eauto | ].
  unfold deleteQueueEntry. run. f_equal.
  unfold with_serving, with_waiting. simpl.
  rewrite delete_insert_eq, !delete_id by assumption.
  now destruct db.
Qed.

(** Carol joins behind Bob and leaves again. *)
Lemma carol_changes_her_mind :
  exists db',
    joinQueue "Carol" 4 "3333333333" (at_time 300000 "-Nc") alice_serving =
      (db', Returns "-Nc") /\
    is_Some (waiting db' !! "-Nc") /\
    deleteQueueEntry "-Nc" db' = (alice_serving, Returns tt).
Proof.
  apply (join_then_delete_restores "Carol" 4 "3333333333"
           (at_time 300000 "-Nc") alice_serving);
    [ vm_compute; discriminate | vm_compute; discriminate | lia
    | reflexivity | reflexivity ].
Defined.

(** *** The completion history *)

Lemma or_default_zero (o : option Z) : or_default 0 o = default 0 o.
Proof.
  destruct o as [z|]; [ | reflexivity ]. simpl. unfold truthyZ.
  destruct (Z.eqb_spec z 0); simpl; congruence.
Qed.

Lemma insert_by_completion_perm x l : insert_by_completion x l ≡ₚ x :: l.
Proof.
  induction l as [|y l IH]; simpl; [ reflexivity | ].
  destruct (_ <=? _); [ reflexivity | ].
  rewrite IH. apply Permutation_swap.
Qed.

Lemma sort_by_completion_perm l : sort_by_completion l ≡ₚ l.
Proof.
  induction l as [|x l IH]; simpl; [ reflexivity | ].
  rewrite insert_by_completion_perm. now rewrite IH.
Qed.

Lemma insert_by_completion_sorted x s :
  StronglySorted no_earlier s ->
  StronglySorted no_earlier (insert_by_completion x s).
Proof.
  induction 1 as [|y s Hs IH Hy]; simpl; [ repeat constructor | ].
  rewrite !or_default_zero.
  fold (completion_time y.2) (completion_time x.2).
  destruct (Z.leb_spec (completion_time y.2) (completion_time x.2)) as [Hle|Hgt].
  - constructor; [ now constructor | ].
    constructor; [ exact Hle | ].
    rewrite List.Forall_forall in Hy |- *. intros z Hz.
    specialize (Hy z Hz). unfold no_earlier in *. lia.
  - constructor; [ exact IH | ].
    rewrite insert_by_completion_perm.
    constructor; [ unfold no_earlier; lia | assumption ].
Qed.

Lemma sort_by_completion_sorted l :
  StronglySorted no_earlier (sort_by_completion l).
Proof.
  induction l as [|x l IH]; simpl; [ constructor | ].
  now apply insert_by_completion_sorted.
Qed.

Lemma slice_to_prefix {A} (limit : Z) (xs : list A) :
  exists m, slice_to limit xs = take m xs /\
            (0 <= limit -> m = Z.to_nat limit).
Proof.
  unfold slice_to. destruct (Z.ltb_spec limit 0).
  - eexists. split; [ reflexivity | lia ].
  - eexists. split; [ reflexivity | reflexivity ].
Qed.

(** X4.  [getCompletionHistory] reads the archive and leaves the database as
    it is.  What it returns are archived entries, each once, the most
    recently archived first; no entry that it leaves out was archived later
    than one that it returns; and for a limit that is not negative (20 when
    none is given) it returns that many entries, or the whole archive when
    the archive has fewer. *)
Theorem history_is_the_latest_first limit db :
  exists h,
    getCompletionHistory limit db = (db, Returns h) /\
    (forall k a, (k, a) ∈ h -> archived db !! k = Some a) /\
    NoDup h.*1 /\
    StronglySorted no_earlier h /\
    (forall k a k' a',
       (k, a) ∈ h -> archived db !! k' = Some a' -> (k', a') ∉ h ->
       completion_time a' <= completion_time a) /\
    (0 <= default 20 limit ->
     length h = Nat.min (Z.to_nat (default 20 limit)) (size (archived db))).
Proof.
  unfold getCompletionHistory. run.
  replace (match limit with Some n => n | None => 20 end)
    with (default 20 limit) by now destruct limit.
  destruct (exists_ (archived db)) eqn:Hex; simpl.
  - set (sorted := sort_by_completion (entries (archived db))).
    assert (Hperm : sorted ≡ₚ entries (archived db))
      by apply sort_by_completion_perm.
    assert (Hsorted : StronglySorted no_earlier sorted)
      by apply sort_by_completion_sorted.
    destruct (slice_to_prefix (default 20 limit) sorted) as (m & -> & Hm).
    eexists. split; [ reflexivity | ].
    rewrite <- (take_drop m sorted) in Hperm, Hsorted.
    split; [ | split; [ | split; [ | split ] ] ].
    + intros k a Hin. apply elem_of_entries. rewrite <- Hperm.
      apply elem_of_app. now left.
    + pose proof (NoDup_keys_entries (archived db)) as Hnd.
      rewrite <- Hperm, fmap_app in Hnd. now apply NoDup_app in Hnd.
    + now apply StronglySorted_app_1_l in Hsorted.
    + intros k a k' a' Hin Hk' Hout.
      apply elem_of_entries in Hk'. rewrite <- Hperm in Hk'.
      apply elem_of_app in Hk' as [Hk'|Hk']; [ contradiction | ].
      exact (StronglySorted_app_1_elem_of _ _ _ _ _ Hsorted Hin Hk').
    + intros Hlimit. rewrite length_take, (Hm Hlimit).
      f_equal. rewrite <- length_entries.
      apply Permutation_length. now rewrite take_drop in Hperm.
  - apply exists_false in Hex.
    eexists. split; [ reflexivity | ].
    split; [ intros k a Hin; now apply elem_of_nil in Hin | ].
    split; [ constructor | ]. split; [ constructor | ].
    split; [ intros k a k' a' Hin; now apply elem_of_nil in Hin | ].
    intros _. rewrite Hex, map_size_empty. simpl. lia.
Qed.

(** After Alice is done and Bob is skipped, the history of one line holds
    Bob, who was archived last. *)
Lemma history_of_one_line :
  getCompletionHistory (Some 1) bob_skipped =
    (bob_skipped, Returns [("-Nb", bob_archived)]) /\
  exists h,
    getCompletionHistory (Some 1) bob_skipped = (bob_skipped, Returns h) /\
    length h = Nat.min 1 (size (archived bob_skipped)).
Proof.
  split; [ reflexivity | ].
  destruct (history_is_the_latest_first (Some 1) bob_skipped)
    as (h & H1 & _ & _ & _ & _ & H6).
  exists h. split; [ exact H1 | ]. apply H6. simpl. lia.
Defined.

(** *** The statistics add up *)

Lemma reachable_ind_inv (P : Store -> Prop) :
  (forall settings, P (initial settings)) ->
  (forall c env db, reachable db -> P db -> P (run_call c env db)) ->
  forall db, reachable db -> P db.
Proof. intros H0 Hstep db H. induction H; auto. Qed.

Lemma updateDailyStats_exact status p w env db :
  updateDailyStats status p w env db =
    let dcur := default (fresh_day (now env)) (daily db !! today env) in
    let mcur := default fresh_month (monthly db !! month_of (today env)) in
    if (status =? "completed")%string then
      let dnew := set_lastUpdated (now env) (count_completed p w dcur) in
      if finite_stats dnew then
        let db1 := with_daily (update_child (today env) dnew (daily db)) db in
        let mnew := count_completed p w mcur in
        if finite_stats mnew then
          (with_monthly
             (update_child (month_of (today env)) mnew (monthly db)) db1,
           Returns tt)
        else (db1, Returns tt)
      else (db, Returns tt)
    else
      let dnew := set_lastUpdated (now env) dcur in
      if finite_stats dnew then
        (with_daily (update_child (today env) dnew (daily db)) db, Returns tt)
      else (db, Returns tt).
Proof.
  unfold updateDailyStats, try_log, update_daily, update_monthly,
    bind, read, write, ret, throw.
  cbn -[finite_stats count_completed set_lastUpdated update_child month_of
        String.eqb].
  destruct db as [wt sv ar d m avg].
  unfold with_daily, with_monthly, fresh_day, fresh_month.
  cbn -[finite_stats count_completed set_lastUpdated update_child month_of].
  destruct (status =? "completed")%string;
    destruct (d !! today env);
    destruct (m !! month_of (today env)) eqn:Em;
    cbn -[finite_stats count_completed set_lastUpdated update_child month_of];
    repeat
      (match goal with
       | |- context [if finite_stats ?s then _ else _] =>
           destruct (finite_stats s)
       end;
       cbn -[finite_stats count_completed set_lastUpdated update_child
             month_of];
       rewrite ?Em;
       cbn -[finite_stats count_completed set_lastUpdated update_child
             month_of]);
    reflexivity.
Qed.

Lemma adds_up_fresh_day t : adds_up (fresh_day t).
Proof. exists 0. repeat split; simpl; lia. Qed.

Lemma adds_up_fresh_month : adds_up fresh_month.
Proof. exists 0. repeat split; simpl; lia. Qed.

Lemma adds_up_set_lastUpdated t s : adds_up s -> adds_up (set_lastUpdated t s).
Proof. intros (w & H). exists w. exact H. Qed.

Lemma adds_up_count_completed p w s :
  adds_up s -> 1 <= p ->
  adds_up (count_completed p w s) /\ finite_stats (count_completed p w s) = true.
Proof.
  intros (t & Ht & [H0 H1] & Havg) Hp.
  unfold count_completed, finite_stats, round_quotient. simpl.
  rewrite !orZ_zero, Ht, or_default_zero. simpl.
  destruct (Z.eqb_spec (totalServed s + 1) 0) as [|Hne]; [ lia | ].
  split; [ | reflexivity ].
  exists (t + w). simpl.
  split; [ reflexivity | ]. split; [ lia | ].
  now rewrite decide_False by assumption.
Qed.

Lemma adds_up_finite s : adds_up s -> finite_stats s = true.
Proof.
  intros (t & _ & _ & Havg). unfold finite_stats. rewrite Havg.
  now case_decide.
Qed.

Lemma merge_stats_derived old new :
  is_Some (totalWaitTime new) ->
  (avgWaitTime new = None -> avgWaitTime old = None) ->
  (lastUpdated new = None -> lastUpdated old = None) ->
  merge_stats old new = new.
Proof.
  intros [t Ht] Ha Hl. destruct new as [ts tp tw av lu]. simpl in *.
  unfold merge_stats. simpl. subst tw. f_equal.
  - destruct av; [ reflexivity | now apply Ha ].
  - destruct lu; [ reflexivity | now apply Hl ].
Qed.

Lemma update_child_daily_skip t key (d : gmap string Stats) :
  update_child key (set_lastUpdated t (default (fresh_day t) (d !! key))) d =
    <[key := set_lastUpdated t (default (fresh_day t) (d !! key))]> d.
Proof.
  unfold update_child. destruct (d !! key) as [old|] eqn:E; [ | reflexivity ].
  simpl. f_equal. unfold merge_stats. destruct old as [ts tp tw av lu].
  simpl. now destruct tw, av.
Qed.

Lemma update_child_completed key new (d : gmap string Stats) p w s0 :
  new = count_completed p w s0 \/
  (exists t, new = set_lastUpdated t (count_completed p w s0)) ->
  (forall old, d !! key = Some old -> lastUpdated s0 = lastUpdated old) ->
  update_child key new d = <[key := new]> d.
Proof.
  intros Hnew Hlu. unfold update_child.
  destruct (d !! key) as [old|] eqn:E; [ | reflexivity ].
  f_equal. apply merge_stats_derived.
  - destruct Hnew as [-> | [t ->]]; simpl; eauto.
  - destruct Hnew as [-> | [t ->]]; simpl; discriminate.
  - destruct Hnew as [-> | [t ->]]; simpl; [ | discriminate ].
    rewrite (Hlu old eq_refl). auto.
Qed.

Lemma adds_up_default (d : gmap string Stats) key fresh :
  (forall k s, d !! k = Some s -> adds_up s) -> adds_up fresh ->
  adds_up (default fresh (d !! key)).
Proof. intros H Hf. destruct (d !! key) eqn:E; simpl; eauto. Qed.

Lemma lastUpdated_default (d : gmap string Stats) key fresh old :
  d !! key = Some old -> lastUpdated (default fresh (d !! key)) = lastUpdated old.
Proof. now intros ->. Qed.

(** What [updateDailyStats] leaves, spelled out, when the records add up
    and the party has at least one person. *)
Lemma updateDailyStats_sound status p w env db :
  stats_add_up db -> 1 <= p ->
  let dcur := default (fresh_day (now env)) (daily db !! today env) in
  let mcur := default fresh_month (monthly db !! month_of (today env)) in
  updateDailyStats status p w env db =
    if (status =? "completed")%string then
      (with_monthly
         (<[month_of (today env) := count_completed p w mcur]> (monthly db))
         (with_daily
            (<[today env := set_lastUpdated (now env) (count_completed p w dcur)]>
               (daily db)) db),
       Returns tt)
    else
      (with_daily (<[today env := set_lastUpdated (now env) dcur]> (daily db)) db,
       Returns tt).
Proof.
  intros [Hd Hm] Hp. cbv zeta. rewrite updateDailyStats_exact. cbv zeta.
  pose proof (adds_up_default _ (today env) _ Hd (adds_up_fresh_day (now env)))
    as Hdcur.
  pose proof (adds_up_default _ (month_of (today env)) _ Hm adds_up_fresh_month)
    as Hmcur.
  destruct (status =? "completed")%string.
  - destruct (adds_up_count_completed p w _ Hdcur Hp) as [Hd1 Hf1].
    destruct (adds_up_count_completed p w _ Hmcur Hp) as [Hm1 Hf2].
    replace (finite_stats (set_lastUpdated (now env) _)) with true
      by (symmetry; exact Hf1).
    rewrite Hf2. simpl.
    rewrite (update_child_completed (today env) _ (daily db) p w _
               (or_intror (ex_intro _ (now env) eq_refl)))
      by (intros old E; now apply lastUpdated_default).
    rewrite (update_child_completed (month_of (today env)) _ (monthly db) p w _
               (or_introl eq_refl))
      by (intros old E; now apply lastUpdated_default).
    reflexivity.
  - replace (finite_stats (set_lastUpdated (now env) _)) with true
      by (symmetry; exact (adds_up_finite _ Hdcur)).
    now rewrite update_child_daily_skip.
Qed.

Lemma other_calls_keep_stats c env db :
  (forall queueId newStatus, c <> Advance queueId newStatus) ->
  daily (run_call c env db) = daily db /\
  monthly (run_call c env db) = monthly db.
Proof.
  intros Hc. destruct c as [name ps phone | queueId newStatus | a b | queueId];
    simpl.
  - destruct (joinQueue_cases name ps phone env db) as [-> | (e & -> & _)];
      auto.
  - now destruct (Hc queueId newStatus).
  - destruct (reorderQueues_cases a b db)
      as [[-> _] | (d1 & d2 & _ & _ & ->)]; auto.
  - auto.
Qed.

(** The statistics after [updateQueueStatus], spelled out. *)
Lemma advance_stats queueId newStatus env db :
  well_formed db -> stats_add_up db ->
  let db' := (updateQueueStatus queueId newStatus env db).1 in
  let dcur := default (fresh_day (now env)) (daily db !! today env) in
  let mcur := default fresh_month (monthly db !! month_of (today env)) in
  (daily db' = daily db /\ monthly db' = monthly db /\
   (newStatus = "serving" \/ locate db queueId = None \/
    newStatus ∉ validStatuses)) \/
  (exists e loc,
     locate db queueId = Some (e, loc) /\ newStatus = "skipped" /\
     daily db' = <[today env := set_lastUpdated (now env) dcur]> (daily db) /\
     monthly db' = monthly db) \/
  (exists e loc,
     locate db queueId = Some (e, loc) /\ newStatus = "completed" /\
     1 <= partySize e /\
     daily db' =
       <[today env :=
           set_lastUpdated (now env)
             (count_completed (partySize e) (wait_minutes e) dcur)]>
         (daily db) /\
     monthly db' =
       <[month_of (today env) :=
           count_completed (partySize e) (wait_minutes e) mcur]>
         (monthly db)).
Proof.
  intros Hwf Hstats. cbv zeta.
  destruct (decide (newStatus ∈ validStatuses)) as [Hv|Hv];
    [ | rewrite updateQueueStatus_invalid by assumption; left; auto ].
  destruct (locate db queueId) as [[e loc]|] eqn:Hloc;
    [ | rewrite updateQueueStatus_unfound by assumption; left; auto ].
  assert (He : 1 <= partySize e).
  { destruct Hwf as (Hw & Hs & _).
    apply locate_Some in Hloc. destruct loc; [ eauto | destruct Hloc; eauto ]. }
  apply allowed_status in Hv as [-> | Hv].
  - rewrite (updateQueueStatus_serving _ _ _ _ _ Hloc).
    left. destruct loc; simpl; auto.
  - rewrite (updateQueueStatus_archive _ _ _ _ _ _ Hv Hloc). cbv zeta.
    rewrite orZ_nonzero by lia.
    rewrite updateDailyStats_sound;
      [ | destruct Hstats; split; destruct loc; assumption | assumption ].
    right. destruct Hv as [-> | ->]; simpl.
    + right. exists e, loc. repeat split; try assumption;
        destruct loc; reflexivity.
    + left. exists e, loc. repeat split; destruct loc; reflexivity.
Qed.

Lemma stats_add_up_step c env db :
  well_formed db -> stats_add_up db -> stats_add_up (run_call c env db).
Proof.
  intros Hwf Hstats.
  assert (Hother : (forall queueId newStatus, c <> Advance queueId newStatus) ->
                   stats_add_up (run_call c env db)).
  { intros Hc. destruct (other_calls_keep_stats c env db Hc) as [Ed Em].
    destruct Hstats. split; rewrite ?Ed, ?Em; assumption. }
  destruct c as [ | queueId newStatus | | ];
    [ apply Hother; discriminate | | apply Hother; discriminate
    | apply Hother; discriminate ].
  - clear Hother. simpl.
    pose proof (adds_up_default _ (today env) _ (proj1 Hstats)
                  (adds_up_fresh_day (now env))) as Hdcur.
    pose proof (adds_up_default _ (month_of (today env)) _ (proj2 Hstats)
                  adds_up_fresh_month) as Hmcur.
    destruct (advance_stats queueId newStatus env db Hwf Hstats)
      as [(Ed & Em & _) | [(e & loc & _ & _ & Ed & Em)
                          | (e & loc & _ & _ & He & Ed & Em)]];
      destruct Hstats as [Hd Hm]; split; rewrite ?Ed, ?Em; try assumption.
    + intros k s [[_ <-] | [_ H]]%lookup_insert_Some; [ | eauto ].
      now apply adds_up_set_lastUpdated.
    + intros k s [[_ <-] | [_ H]]%lookup_insert_Some; [ | eauto ].
      apply adds_up_set_lastUpdated.
      now apply adds_up_count_completed.
    + intros k s [[_ <-] | [_ H]]%lookup_insert_Some; [ | eauto ].
      now apply adds_up_count_completed.
Qed.

Lemma well_formed_step c env db :
  well_formed db -> well_formed (run_call c env db).
Proof.
  intros H. destruct c; simpl.
  - now apply well_formed_join.
  - now apply well_formed_advance.
  - now apply well_formed_reorder.
  - now apply well_formed_delete.
Qed.

Lemma reachable_stats_add_up db : reachable db -> stats_add_up db.
Proof.
  intros H. induction H as [settings | c env db H IH].
  - split; intros k s; simpl; rewrite lookup_empty; discriminate.
  - apply stats_add_up_step; [ now apply reachable_well_formed | assumption ].
Qed.

(** X5.  In every database that the service leads to, the record of each day
    and of each month adds up: the parties served are not negative in
    number and no more than the people served, and the average wait that
    the record shows is its total wait divided by its number of parties,
    rounded; a record without a party served shows no average. *)
Theorem statistics_add_up db :
  reachable db ->
  (forall day s, daily db !! day = Some s -> adds_up s) /\
  (forall month s, monthly db !! month = Some s -> adds_up s).
Proof. apply reachable_stats_add_up. Qed.

(** The day on which Alice was served: one party of two, three minutes. *)
Lemma the_day_of_alice_adds_up :
  daily alice_completed !! "2026-03-01" =
    Some {| totalServed := 1; totalPeople := 2; totalWaitTime := Some 3;
            avgWaitTime := Some (Finite 3); lastUpdated := Some 900000 |} /\
  adds_up {| totalServed := 1; totalPeople := 2; totalWaitTime := Some 3;
             avgWaitTime := Some (Finite 3); lastUpdated := Some 900000 |}.
Proof.
  split; [ reflexivity | ].
  apply (proj1 (statistics_add_up alice_completed reachable_alice_completed)
           "2026-03-01").
  reflexivity.
Defined.

(** *** The months are the sums of their days *)

Lemma sumZ_perm (l l' : list Z) : l ≡ₚ l' -> sumZ l = sumZ l'.
Proof.
  induction 1 as [ | x l l' _ IH | x y l | l l' l'' _ IH _ IH' ]; simpl;
    [ reflexivity | now rewrite IH | lia | congruence ].
Qed.

Lemma month_total_insert_fresh f m k s (d : gmap string Stats) :
  d !! k = None ->
  month_total f m (<[k := s]> d) =
    (if decide (month_of k = m) then f s else 0) + month_total f m d.
Proof.
  intros Hk. unfold month_total.
  rewrite (sumZ_perm _ _ (fmap_Permutation _ _ _ (map_to_list_insert d k s Hk))).
  reflexivity.
Qed.

Lemma month_total_insert f m k s (d : gmap string Stats) :
  month_total f m (<[k := s]> d) =
    month_total f m d
    - (if decide (month_of k = m) then from_option f 0 (d !! k) else 0)
    + (if decide (month_of k = m) then f s else 0).
Proof.
  destruct (d !! k) as [s0|] eqn:Hk.
  - assert (E1 : month_total f m (<[k := s]> d) =
                 (if decide (month_of k = m) then f s else 0)
                 + month_total f m (delete k d)).
    { rewrite <- (insert_delete_eq d).
      apply month_total_insert_fresh, lookup_delete_eq. }
    assert (E2 : month_total f m d =
                 (if decide (month_of k = m) then f s0 else 0)
                 + month_total f m (delete k d)).
    { rewrite <- (insert_delete_id d k s0 Hk) at 1.
      apply month_total_insert_fresh, lookup_delete_eq. }
    rewrite E1, E2. simpl. case_decide; lia.
  - rewrite month_total_insert_fresh by assumption. simpl. case_decide; lia.
Qed.

Lemma month_total_empty f m : month_total f m ∅ = 0.
Proof. unfold month_total. now rewrite map_to_list_empty. Qed.

Lemma counted_field (f : Stats -> Z) (p w : Z) :
  f = totalServed \/ f = totalPeople \/ f = waited ->
  exists delta,
    (forall s, f (count_completed p w s) = f s + delta) /\
    (forall t s, f (set_lastUpdated t s) = f s) /\
    (forall t, f (fresh_day t) = 0) /\ f fresh_month = 0.
Proof.
  intros [-> | [-> | ->]].
  - exists 1. repeat split; intros; simpl; now rewrite ?orZ_zero.
  - exists p. repeat split; intros; simpl; now rewrite ?orZ_zero.
  - exists w. repeat split; intros; unfold waited; simpl;
      now rewrite ?or_default_zero.
Qed.

Lemma field_of_default (f : Stats -> Z) (d : gmap string Stats) k fresh :
  f fresh = 0 -> f (default fresh (d !! k)) = from_option f 0 (d !! k).
Proof. intros H. now destruct (d !! k). Qed.

Lemma months_match_step c env db :
  well_formed db -> stats_add_up db ->
  months_match db -> months_match (run_call c env db).
Proof.
  intros Hwf Hstats Hmatch.
  assert (Hother : (forall queueId newStatus, c <> Advance queueId newStatus) ->
                   months_match (run_call c env db)).
  { intros Hc. destruct (other_calls_keep_stats c env db Hc) as [Ed Em].
    intros f m Hf. rewrite Ed, Em. now apply Hmatch. }
  destruct c as [ | queueId newStatus | | ];
    [ apply Hother; discriminate | | apply Hother; discriminate
    | apply Hother; discriminate ].
  clear Hother. simpl. intros f m Hf.
  specialize (Hmatch f).
  destruct (advance_stats queueId newStatus env db Hwf Hstats)
    as [(Ed & Em & _) | [(e & loc & _ & _ & Ed & Em)
                        | (e & loc & _ & _ & He & Ed & Em)]];
    rewrite Ed, Em; clear Ed Em.
  - now apply Hmatch.
  - destruct (counted_field f 0 0 Hf)
      as (_ & _ & Hset & Hfd & _).
    rewrite month_total_insert, Hset, field_of_default by apply Hfd.
    rewrite Hmatch by assumption. lia.
  - destruct (counted_field f (partySize e) (wait_minutes e) Hf)
      as (delta & Hcount & Hset & Hfd & Hfm).
    rewrite month_total_insert, Hset, Hcount, field_of_default by apply Hfd.
    rewrite lookup_insert. case_decide as Hm.
    + simpl. rewrite Hcount, field_of_default by apply Hfm.
      subst m. rewrite Hmatch by assumption. lia.
    + rewrite Hmatch by assumption. lia.
Qed.

Lemma reachable_months_match db : reachable db -> months_match db.
Proof.
  intros H. induction H as [settings | c env db H IH].
  - intros f m _. simpl. now rewrite lookup_empty, month_total_empty.
  - apply months_match_step;
      [ now apply reachable_well_formed | now apply reachable_stats_add_up
      | assumption ].
Qed.

(** X6.  In every database that the service leads to, the record of a month
    is the sum of the records of its days: its parties served, its people
    served and its total wait are those of the days whose date begins with
    the month, added up (and a month without a record has only days that
    add up to 0). *)
Theorem month_is_the_sum_of_its_days db month :
  reachable db ->
  from_option totalServed 0 (monthly db !! month) =
    month_total totalServed month (daily db) /\
  from_option totalPeople 0 (monthly db !! month) =
    month_total totalPeople month (daily db) /\
  from_option waited 0 (monthly db !! month) =
    month_total waited month (daily db).
Proof.
  intros H. pose proof (reachable_months_match db H) as Hm.
  repeat split; apply Hm; auto.
Qed.

(** March 2026, after Alice was served and Bob was skipped. *)
Lemma march_is_the_sum_of_its_days :
  from_option totalServed 0 (monthly bob_skipped !! "2026-03") =
    month_total totalServed "2026-03" (daily bob_skipped) /\
  from_option totalPeople 0 (monthly bob_skipped !! "2026-03") =
    month_total totalPeople "2026-03" (daily bob_skipped) /\
  from_option waited 0 (monthly bob_skipped !! "2026-03") =
    month_total waited "2026-03" (daily bob_skipped).
Proof.
  apply (month_is_the_sum_of_its_days bob_skipped "2026-03").
  repeat constructor.
Defined.

(** *** The positions of the line *)

Lemma line_in_order_delete k w : line_in_order w -> line_in_order (delete k w).
Proof.
  intros [Hpos Hdis]. split.
  - intros k' e [_ H]%lookup_delete_Some. eauto.
  - intros k1 e1 k2 e2 [_ H1]%lookup_delete_Some [_ H2]%lookup_delete_Some.
    eauto.
Qed.

Lemma line_in_order_join k e w :
  line_in_order w -> one_above_max w (position e) ->
  line_in_order (<[k := e]> w).
Proof.
  intros [Hpos Hdis] (Hempty & Habove & Hmax). split.
  - intros k' e'. rewrite lookup_insert. case_decide; [ | eauto ].
    intros [= <-]. destruct (decide (w = ∅)) as [Hw|Hw]; [ rewrite Hempty; auto; lia | ].
    destruct (Hmax Hw) as (k0 & e0 & H0 & ->). specialize (Hpos _ _ H0). lia.
  - intros k1 e1 k2 e2. rewrite !lookup_insert.
    repeat case_decide; subst; try congruence.
    + intros [= <-] H2 E. specialize (Habove _ _ H2). lia.
    + intros H1 [= <-] E. specialize (Habove _ _ H1). lia.
    + eauto.
Qed.

Lemma line_in_order_swap a b ea eb w :
  w !! a = Some ea -> w !! b = Some eb -> line_in_order w ->
  line_in_order
    (update_position b (position ea) (update_position a (position eb) w)).
Proof.
  intros Ha Hb [Hpos Hdis]. split.
  - intros k e. rewrite (lookup_swapped w a b ea eb k Ha Hb).
    repeat case_decide; [ intros [= <-] | intros [= <-] | ]; simpl; eauto.
  - intros k1 e1 k2 e2.
    rewrite (lookup_swapped w a b ea eb k1 Ha Hb),
            (lookup_swapped w a b ea eb k2 Ha Hb).
    repeat case_decide; subst; intros Hk1 Hk2 E;
      try (injection Hk1 as <-); try (injection Hk2 as <-); simpl in E;
      try reflexivity;
      solve [ eauto
            | pose proof (Hdis _ _ _ _ Ha Hb E); congruence
            | pose proof (Hdis _ _ _ _ Ha Hk2 E); congruence
            | pose proof (Hdis _ _ _ _ Hb Ha E); congruence
            | pose proof (Hdis _ _ _ _ Hb Hk2 E); congruence
            | pose proof (Hdis _ _ _ _ Hk1 Ha E); congruence
            | pose proof (Hdis _ _ _ _ Hk1 Hb E); congruence ].
Qed.

Lemma line_in_order_step c env db :
  line_in_order (waiting db) -> line_in_order (waiting (run_call c env db)).
Proof.
  intros Hline.
  destruct c as [name ps phone | queueId newStatus | a b | queueId]; simpl.
  - destruct (decide (trim name = "")) as [Hn|Hn];
      [ unfold joinQueue; now rewrite Hn | ].
    destruct (decide (trim phone = "")) as [Hp|Hp];
      [ unfold joinQueue; rewrite Hp; now rewrite orb_true_r | ].
    destruct (Z.ltb_spec ps 1) as [Hs|Hs].
    { unfold joinQueue. apply Z.ltb_lt in Hs. rewrite Hs.
      now rewrite orb_true_r. }
    destruct (joinQueue_accepts name ps phone env db Hn Hp Hs)
      as (e & -> & Hmax & _).
    simpl. now apply line_in_order_join.
  - destruct (updateQueueStatus_partitions queueId newStatus env db)
      as [_ [(-> & _) | [(e & _ & -> & _) | (e & loc & _ & _ & -> & _)]]];
      [ assumption | now apply line_in_order_delete | ].
    destruct loc; [ now apply line_in_order_delete | assumption ].
  - destruct (reorderQueues_cases a b db)
      as [[-> _] | (d1 & d2 & H1 & H2 & ->)]; [ assumption | ].
    simpl. now apply line_in_order_swap.
  - unfold deleteQueueEntry. run. now apply line_in_order_delete.
Qed.

Lemma reachable_line_in_order db :
  reachable db -> line_in_order (waiting db).
Proof.
  intros H. induction H as [settings | c env db H IH].
  - split; intros k e; simpl; rewrite lookup_empty; discriminate.
  - now apply line_in_order_step.
Qed.

(** X7.  In every database that the service leads to, the stored positions
    of the waiting partition are at least 1 and no two waiting entries have
    the same position. *)
Theorem waiting_positions_are_distinct db :
  reachable db ->
  (forall k e, waiting db !! k = Some e -> 1 <= position e) /\
  (forall k1 e1 k2 e2,
     waiting db !! k1 = Some e1 -> waiting db !! k2 = Some e2 ->
     position e1 = position e2 -> k1 = k2).
Proof. apply reachable_line_in_order. Qed.

Lemma reachable_bob_joined : reachable bob_joined.
Proof. repeat constructor. Qed.

(** Alice and Bob, in the line, do not share a position. *)
Lemma alice_and_bob_have_their_own_positions :
  1 <= position alice_in_line /\ 1 <= position bob_in_line /\
  (position alice_in_line = position bob_in_line -> "-Na" = "-Nb").
Proof.
  destruct (waiting_positions_are_distinct bob_joined reachable_bob_joined)
    as [Hpos Hdis].
  split; [ exact (Hpos "-Na" alice_in_line eq_refl) | ].
  split; [ exact (Hpos "-Nb" bob_in_line eq_refl) | ].
  exact (Hdis "-Na" alice_in_line "-Nb" bob_in_line eq_refl eq_refl).
Defined.

(** *** The rank as a count *)

Lemma filter_all {A} (P : A -> Prop) `{!forall x, Decision (P x)} (l : list A) :
  Forall P l -> filter P l = l.
Proof.
  induction 1 as [|x l Hx _ IH]; [ reflexivity | ].
  now rewrite filter_cons_True, IH.
Qed.

Lemma filter_none {A} (P : A -> Prop) `{!forall x, Decision (P x)} (l : list A) :
  Forall (fun x => ~ P x) l -> filter P l = [].
Proof.
  induction 1 as [|x l Hx _ IH]; [ reflexivity | ].
  now rewrite filter_cons_False.
Qed.

Lemma before_both_ways x y : before x y -> before y x -> x.1 = y.1.
Proof.
  unfold before. intros [H1 | [E1 L1]] [H2 | [E2 L2]]; try lia.
  now apply (anti_symm String.le).
Qed.

(** In a line put in order, an entry has as many entries ahead of it as its
    index says. *)
Lemma ahead_in_sorted (l : list (string * Entry)) n x :
  NoDup l.*1 -> StronglySorted before l -> l !! n = Some x ->
  length (filter (ahead_of x) l) = n.
Proof.
  intros Hnd Hsorted Hn.
  pose proof (take_drop_middle l n x Hn) as Hl.
  rewrite <- Hl in Hnd, Hsorted. rewrite <- Hl.
  rewrite fmap_app, fmap_cons in Hnd.
  apply NoDup_app in Hnd as (_ & Hdis & Hnd).
  apply NoDup_cons in Hnd as [Hx _].
  apply StronglySorted_app in Hsorted as (Hcross & _ & Hsorted).
  apply StronglySorted_cons in Hsorted as [Hafter _].
  rewrite filter_app, filter_cons_False by (intros [_ H]; now apply H).
  rewrite (filter_all _ (take n l)), (filter_none _ (drop (S n) l)).
  - rewrite length_app, length_take. simpl.
    apply lookup_lt_Some in Hn. lia.
  - rewrite List.Forall_forall in Hafter |- *.
    intros z Hz [Hzx Hne]. apply list_elem_of_In in Hz.
    apply Hne. apply before_both_ways; [ assumption | ].
    apply Hafter. now apply list_elem_of_In.
  - apply Forall_forall. intros z Hz. split.
    + apply Hcross; [ assumption | left ].
    + intros E. apply (Hdis z.1).
      * apply list_elem_of_fmap. eauto.
      * rewrite E. left.
Qed.

Lemma getQueuePosition_ahead queueId db e :
  waiting db !! queueId = Some e ->
  getQueuePosition queueId db =
    (db, Returns (Z.of_nat (S (ahead (waiting db) queueId e)))).
Proof.
  intros Hw.
  destruct (getQueuePosition_waiting queueId db e Hw)
    as (n & sorted & -> & Hperm & Hsorted & Hn).
  do 4 f_equal. unfold ahead. rewrite <- Hperm.
  symmetry. apply ahead_in_sorted; try assumption.
  rewrite Hperm. apply NoDup_fst_map_to_list.
Qed.

Lemma getQueueStatus_ahead queueId db e :
  waiting db !! queueId = Some e ->
  exists r,
    getQueueStatus queueId db = (db, Returns r) /\
    position (data r) = 1 + Z.of_nat (ahead (waiting db) queueId e).
Proof.
  intros Hw. unfold getQueueStatus. run. rewrite Hw. simpl.
  unfold bind. rewrite (getQueuePosition_ahead _ _ _ Hw),
    getEstimatedWaitTime_value.
  eexists. split; [ reflexivity | ]. simpl. lia.
Qed.

Lemma ahead_without (w : gmap string Entry) a ea b eb :
  w !! a = Some ea ->
  ahead w b eb =
    ((if decide (ahead_of (b, eb) (a, ea)) then 1 else 0)
     + ahead (delete a w) b eb)%nat.
Proof.
  intros Ha. unfold ahead.
  rewrite <- (Permutation_length
                (filter_Permutation _ _ _ (map_to_list_delete w a ea Ha))).
  rewrite filter_cons. case_decide; simpl; lia.
Qed.

Lemma ahead_of_everyone (w : gmap string Entry) k e :
  w !! k = None ->
  (forall k' e', w !! k' = Some e' -> position e' < position e) ->
  ahead w k e = size w.
Proof.
  intros Hk Hall. unfold ahead. rewrite filter_all.
  - apply length_map_to_list.
  - apply Forall_forall. intros [k' e'] Hin.
    apply elem_of_map_to_list in Hin. split.
    + left. simpl. eauto.
    + simpl. congruence.
Qed.

(** X8.  Who joins is last: right after a call of [joinQueue] that was
    accepted, [getQueueStatus] on the key it returned reports as position
    the number of entries of the waiting partition. *)
Theorem newcomer_is_last name partySize phone env db :
  trim name <> "" -> trim phone <> "" -> 1 <= partySize ->
  exists db' r,
    joinQueue name partySize phone env db = (db', Returns (pushKey env)) /\
    getQueueStatus (pushKey env) db' = (db', Returns r) /\
    position (data r) = Z.of_nat (size (waiting db')).
Proof.
  intros Hn Hp Hs.
  destruct (joinQueue_accepts name partySize phone env db Hn Hp Hs)
    as (e & -> & (_ & Habove & _) & _).
  eexists. simpl.
  destruct (getQueueStatus_ahead (pushKey env)
              (with_waiting (<[pushKey env := e]> (waiting db)) db) e)
    as (r & Hr & Hpos); [ apply lookup_insert_eq | ].
  exists r. split; [ reflexivity | ]. split; [ exact Hr | ].
  rewrite Hpos. simpl.
  rewrite (ahead_without _ (pushKey env) e) by apply lookup_insert_eq.
  rewrite decide_False by (intros [_ H]; now apply H).
  rewrite delete_insert_eq.
  rewrite ahead_of_everyone.
  - rewrite <- (insert_delete_eq (waiting db)).
    rewrite map_size_insert_None by apply lookup_delete_eq. lia.
  - apply lookup_delete_eq.
  - intros k' e' [_ H]%lookup_delete_Some. eauto.
Qed.

(** Carol joins behind Bob: she is second. *)
Lemma carol_is_second :
  exists db' r,
    joinQueue "Carol" 4 "3333333333" (at_time 300000 "-Nc") alice_serving =
      (db', Returns "-Nc") /\
    getQueueStatus "-Nc" db' = (db', Returns r) /\
    position (data r) = Z.of_nat (size (waiting db')).
Proof.
  apply (newcomer_is_last "Carol" 4 "3333333333" (at_time 300000 "-Nc")
           alice_serving);
    [ vm_compute; discriminate | vm_compute; discriminate | lia ].
Defined.

(** *** When somebody leaves the line *)

Lemma locate_waiting db queueId e :
  waiting db !! queueId = Some e -> locate db queueId = Some (e, InWaiting).
Proof. unfold locate. now intros ->. Qed.

Lemma leaving_the_line c env db a ea :
  waiting db !! a = Some ea ->
  c = Advance a "serving" \/ c = Advance a "completed" \/
  c = Advance a "skipped" \/ c = Delete a ->
  waiting (run_call c env db) = delete a (waiting db).
Proof.
  intros Ha Hc. apply locate_waiting in Ha.
  destruct Hc as [-> | [-> | [-> | ->]]]; simpl.
  - now rewrite (updateQueueStatus_serving _ _ _ _ _ Ha).
  - rewrite (updateQueueStatus_archive _ _ _ _ _ _ (or_introl eq_refl) Ha).
    cbv zeta.
    match goal with
    | |- context [updateDailyStats ?s ?p ?w ?env ?db2] =>
        destruct (updateDailyStats_effect s p w env db2) as (db' & -> & Ew & _)
    end.
    simpl. now rewrite Ew.
  - rewrite (updateQueueStatus_archive _ _ _ _ _ _ (or_intror eq_refl) Ha).
    cbv zeta.
    match goal with
    | |- context [updateDailyStats ?s ?p ?w ?env ?db2] =>
        destruct (updateDailyStats_effect s p w env db2) as (db' & -> & Ew & _)
    end.
    simpl. now rewrite Ew.
  - reflexivity.
Qed.

(** X9.  When an entry leaves the waiting partition, because it is called,
    completed or skipped from the line or because it is deleted, every other
    waiting entry keeps what is stored for it, its position included, and
    the position that [getQueueStatus] reports for it goes down by one if
    the entry that left was before it in the line, and stays as it was if
    not. *)
Theorem the_line_moves_up env db a ea b eb c :
  waiting db !! a = Some ea -> waiting db !! b = Some eb -> a <> b ->
  c = Advance a "serving" \/ c = Advance a "completed" \/
  c = Advance a "skipped" \/ c = Delete a ->
  exists r r',
    getQueueStatus b db = (db, Returns r) /\
    waiting (run_call c env db) !! b = Some eb /\
    getQueueStatus b (run_call c env db) = (run_call c env db, Returns r') /\
    position (data r') =
      position (data r) - (if decide (before (a, ea) (b, eb)) then 1 else 0).
Proof.
  intros Ha Hb Hab Hc.
  pose proof (leaving_the_line c env db a ea Ha Hc) as Hw'.
  assert (Hb' : waiting (run_call c env db) !! b = Some eb)
    by (rewrite Hw'; now rewrite lookup_delete_ne).
  destruct (getQueueStatus_ahead b db eb Hb) as (r & Hr & Hpos).
  destruct (getQueueStatus_ahead b (run_call c env db) eb Hb')
    as (r' & Hr' & Hpos').
  exists r, r'. repeat split; try assumption.
  rewrite Hpos, Hpos', Hw', (ahead_without (waiting db) a ea b eb Ha).
  destruct (decide (before (a, ea) (b, eb))) as [Hbefore|Hbefore].
  - rewrite decide_True by (split; [ assumption | exact Hab ]). lia.
  - rewrite decide_False by (intros [H _]; contradiction). lia.
Qed.

(** Alice is called; Bob, who was second, is first. *)
Lemma bob_moves_up :
  exists r r',
    getQueueStatus "-Nb" bob_joined = (bob_joined, Returns r) /\
    waiting alice_serving !! "-Nb" = Some bob_in_line /\
    getQueueStatus "-Nb" alice_serving = (alice_serving, Returns r') /\
    position (data r') = position (data r) - 1.
Proof.
  apply (the_line_moves_up (at_time 181000 "") bob_joined
           "-Na" alice_in_line "-Nb" bob_in_line (Advance "-Na" "serving"));
    [ reflexivity | reflexivity | discriminate | left; reflexivity ].
Defined.

(** *** Swapping two entries swaps their ranks *)

Lemma filter_agree {A} (P Q : A -> Prop) `{!forall x, Decision (P x)}
    `{!forall x, Decision (Q x)} (l : list A) :
  (forall x, x ∈ l -> P x <-> Q x) -> filter P l = filter Q l.
Proof.
  induction l as [|x l IH]; intros Hall; [ reflexivity | ].
  rewrite !filter_cons.
  rewrite IH by (intros y Hy; apply Hall; now right).
  pose proof (Hall x ltac:(left)) as Hx.
  destruct (decide (P x)) as [Hp|Hp], (decide (Q x)) as [Hq|Hq];
    try reflexivity; tauto.
Qed.

Lemma positions_of_filter (p : Z) (l : list (string * Entry)) :
  (fun kv : string * Entry => position kv.2) <$>
    filter (fun kv : string * Entry => position kv.2 < p) l =
  filter (fun q => q < p) ((fun kv : string * Entry => position kv.2) <$> l).
Proof.
  induction l as [|x l IH]; [ reflexivity | ].
  rewrite filter_cons. csimpl. rewrite filter_cons.
  destruct (decide (position x.2 < p)); csimpl; now rewrite IH.
Qed.

Lemma ahead_below (w : gmap string Entry) k e :
  line_in_order w -> w !! k = Some e -> ahead w k e = below w (position e).
Proof.
  intros [_ Hdis] Hk. unfold ahead, below.
  rewrite <- (length_fmap (fun kv : string * Entry => position kv.2)
                (filter (ahead_of (k, e)) (map_to_list w))).
  f_equal.
  rewrite (filter_agree (ahead_of (k, e))
             (fun kv => position kv.2 < position e)).
  - apply positions_of_filter.
  - intros [k' e'] Hin. apply elem_of_map_to_list in Hin.
    unfold ahead_of, before. simpl. split.
    + intros [[H | [E _]] Hne]; [ assumption | ].
      now destruct (Hne (Hdis _ _ _ _ Hin Hk E)).
    + intros Hlt. split; [ now left | ].
      intros ->. rewrite Hk in Hin. injection Hin as <-. lia.
Qed.

Lemma below_perm (w w' : gmap string Entry) p :
  (fun kv : string * Entry => position kv.2) <$> map_to_list w ≡ₚ
  (fun kv : string * Entry => position kv.2) <$> map_to_list w' ->
  below w p = below w' p.
Proof. intros H. unfold below. now rewrite H. Qed.

Lemma swapped_positions (w : gmap string Entry) a b ea eb :
  w !! a = Some ea -> w !! b = Some eb ->
  (fun kv : string * Entry => position kv.2) <$>
    map_to_list
      (update_position b (position ea) (update_position a (position eb) w))
  ≡ₚ (fun kv : string * Entry => position kv.2) <$> map_to_list w.
Proof.
  intros Ha Hb.
  set (w' := update_position b (position ea)
               (update_position a (position eb) w)).
  assert (Hw' : forall k, w' !! k =
    if decide (k = b) then Some (set_position (position ea) eb)
    else if decide (k = a) then Some (set_position (position eb) ea)
    else w !! k) by (intros k; now apply lookup_swapped).
  destruct (decide (a = b)) as [<-|Hab].
  - rewrite Ha in Hb. injection Hb as <-.
    replace w' with w; [ reflexivity | ].
    apply map_eq. intros k. rewrite Hw'. case_decide as E.
    + subst k. rewrite Ha. f_equal. now destruct ea.
    + reflexivity.
  - set (w0 := delete a (delete b w)).
    assert (E : w = <[a := ea]> (<[b := eb]> w0)).
    { apply map_eq. intros k. subst w0.
      rewrite !lookup_insert, !lookup_delete.
      repeat case_decide; subst; congruence. }
    assert (E' : w' = <[a := set_position (position eb) ea]>
                        (<[b := set_position (position ea) eb]> w0)).
    { apply map_eq. intros k. rewrite Hw'. subst w0.
      rewrite !lookup_insert, !lookup_delete.
      repeat case_decide; subst; congruence. }
    assert (H0b : w0 !! b = None)
      by (subst w0; rewrite lookup_delete_ne, lookup_delete_eq; congruence).
    assert (H0a : forall x, <[b := x]> w0 !! a = None)
      by (intros x; subst w0; rewrite lookup_insert_ne, lookup_delete_eq;
          congruence).
    assert (Hl : map_to_list w ≡ₚ (a, ea) :: (b, eb) :: map_to_list w0).
    { rewrite E at 1. now rewrite !map_to_list_insert by auto. }
    rewrite E', Hl, !map_to_list_insert by auto.
    csimpl. apply Permutation_swap.
Qed.

(** X10.  In a database that the service has led to, [reorderQueues(a, b)]
    on two waiting entries swaps the positions that [getQueueStatus]
    reports for them, and leaves the reported position of every other
    waiting entry as it was. *)
Theorem reorder_swaps_the_ranks db a b ea eb :
  reachable db ->
  waiting db !! a = Some ea -> waiting db !! b = Some eb ->
  exists db' ra rb ra' rb',
    reorderQueues a b db = (db', Returns tt) /\
    getQueueStatus a db = (db, Returns ra) /\
    getQueueStatus b db = (db, Returns rb) /\
    getQueueStatus a db' = (db', Returns ra') /\
    getQueueStatus b db' = (db', Returns rb') /\
    position (data ra') = position (data rb) /\
    position (data rb') = position (data ra) /\
    forall k e, k <> a -> k <> b -> waiting db !! k = Some e ->
      exists r r',
        getQueueStatus k db = (db, Returns r) /\
        getQueueStatus k db' = (db', Returns r') /\
        position (data r') = position (data r).
Proof.
  intros Hreach Ha Hb.
  pose proof (reachable_line_in_order db Hreach) as Hline.
  pose proof (line_in_order_swap a b ea eb _ Ha Hb Hline) as Hline'.
  destruct (reorderQueues_cases a b db)
    as [[_ [H|H]] | (d1 & d2 & H1 & H2 & Hrun)]; try congruence.
  rewrite Ha in H1. rewrite Hb in H2.
  injection H1 as <-. injection H2 as <-.
  set (w' := update_position b (position ea)
               (update_position a (position eb) (waiting db))) in *.
  assert (Hw' : forall k, w' !! k =
    if decide (k = b) then Some (set_position (position ea) eb)
    else if decide (k = a) then Some (set_position (position eb) ea)
    else waiting db !! k) by (intros k; now apply lookup_swapped).
  assert (Hbelow : forall p, below w' p = below (waiting db) p)
    by (intros p; apply below_perm; now apply swapped_positions).
  assert (Hrank : forall k e,
            waiting db !! k = Some e ->
            exists r, getQueueStatus k db = (db, Returns r) /\
                      position (data r) =
                        1 + Z.of_nat (below (waiting db) (position e))).
  { intros k e Hk. destruct (getQueueStatus_ahead k db e Hk) as (r & Hr & Hp).
    exists r. split; [ assumption | ]. now rewrite Hp, ahead_below. }
  assert (Hrank' : forall k e,
            w' !! k = Some e ->
            exists r, getQueueStatus k (with_waiting w' db) =
                        (with_waiting w' db, Returns r) /\
                      position (data r) =
                        1 + Z.of_nat (below (waiting db) (position e))).
  { intros k e Hk.
    destruct (getQueueStatus_ahead k (with_waiting w' db) e Hk)
      as (r & Hr & Hp).
    exists r. split; [ assumption | ].
    rewrite Hp. simpl. now rewrite ahead_below, Hbelow. }
  assert (Hwb : w' !! b = Some (set_position (position ea) eb))
    by (rewrite Hw'; now rewrite decide_True).
  assert (Hwa : exists ea', w' !! a = Some ea' /\ position ea' = position eb).
  { rewrite Hw'. case_decide as E.
    - subst b. rewrite Ha in Hb. injection Hb as <-. eauto.
    - rewrite decide_True by reflexivity. eauto. }
  destruct Hwa as (ea' & Hwa & Hpa).
  destruct (Hrank a ea Ha) as (ra & Hra & Hpra).
  destruct (Hrank b eb Hb) as (rb & Hrb & Hprb).
  destruct (Hrank' a ea' Hwa) as (ra' & Hra' & Hpra').
  destruct (Hrank' b _ Hwb) as (rb' & Hrb' & Hprb').
  exists (with_waiting w' db), ra, rb, ra', rb'.
  split; [ exact Hrun | ]. do 4 (split; [ assumption | ]).
  split; [ now rewrite Hpra', Hprb, Hpa | ].
  split; [ now rewrite Hprb', Hpra | ].
  intros k e Hka Hkb Hk.
  destruct (Hrank k e Hk) as (r & Hr & Hpr).
  assert (Hk' : w' !! k = Some e) by (rewrite Hw'; now rewrite !decide_False).
  destruct (Hrank' k e Hk') as (r' & Hr' & Hpr').
  exists r, r'. split; [ assumption | ]. split; [ assumption | ].
  now rewrite Hpr, Hpr'.
Qed.

(** Bob is let in before Alice: he is first now, and she second. *)
Lemma bob_and_alice_change_places :
  exists db' ra rb ra' rb',
    reorderQueues "-Na" "-Nb" bob_joined = (db', Returns tt) /\
    getQueueStatus "-Na" bob_joined = (bob_joined, Returns ra) /\
    getQueueStatus "-Nb" bob_joined = (bob_joined, Returns rb) /\
    getQueueStatus "-Na" db' = (db', Returns ra') /\
    getQueueStatus "-Nb" db' = (db', Returns rb') /\
    position (data ra') = position (data rb) /\
    position (data rb') = position (data ra).
Proof.
  destruct (reorder_swaps_the_ranks bob_joined "-Na" "-Nb"
              alice_in_line bob_in_line reachable_bob_joined eq_refl eq_refl)
    as (db' & ra & rb & ra' & rb' & H1 & H2 & H3 & H4 & H5 & H6 & H7 & _).
  exists db', ra, rb, ra', rb'. repeat split; assumption.
Defined.

(** *** One partition at a time *)

Lemma one_place_step c env db :
  one_place db ->
  (forall name partySize phone,
     c = Join name partySize phone -> serving db !! pushKey env = None) ->
  one_place (run_call c env db).
Proof.
  intros Hone Hfresh.
  destruct c as [name ps phone | queueId newStatus | a b | queueId]; simpl.
  - specialize (Hfresh name ps phone eq_refl).
    destruct (joinQueue_cases name ps phone env db) as [-> | (e & -> & _)];
      [ assumption | ].
    intros k. simpl. rewrite lookup_insert. case_decide; [ now subst | auto ].
  - destruct (updateQueueStatus_partitions queueId newStatus env db)
      as [_ [(Ew & Es & _) | [(e & He & Ew & Es & _)
                             | (e & loc & Hloc & _ & Ew & Es & _)]]];
      intros k; rewrite Ew, Es; clear Ew Es.
    + apply Hone.
    + intros [x [Hne Hx]%lookup_delete_Some].
      rewrite lookup_insert_ne by assumption. apply Hone. eauto.
    + destruct loc.
      * intros [x [_ Hx]%lookup_delete_Some]. apply Hone. eauto.
      * intros Hk. rewrite lookup_delete. case_decide; [ reflexivity | auto ].
  - destruct (reorderQueues_cases a b db)
      as [[-> _] | (d1 & d2 & H1 & H2 & ->)]; [ assumption | ].
    intros k [x Hx]. simpl in *.
    apply lookup_update_position in Hx as (x1 & Hx & _).
    apply lookup_update_position in Hx as (x0 & Hx & _).
    apply Hone. eauto.
  - unfold deleteQueueEntry. run. intros k. simpl.
    intros [x [_ Hx]%lookup_delete_Some].
    rewrite lookup_delete. case_decide; [ reflexivity | ].
    apply Hone. eauto.
Qed.

(** X11.  An entry is in one partition at a time.  If no id is both in
    waiting and in serving, this is still so after any call of the service,
    provided the key of a join is new to the serving partition; and after
    [updateQueueStatus] has found the entry, the id is in serving only when
    the target was "serving", and in the archive only, out of waiting and of
    serving, when the target was "completed" or "skipped". *)
Theorem one_partition_at_a_time db :
  one_place db ->
  (forall c env,
     (forall name partySize phone,
        c = Join name partySize phone -> serving db !! pushKey env = None) ->
     one_place (run_call c env db)) /\
  (forall queueId newStatus env,
     is_Some (locate db queueId) ->
     let db' := (updateQueueStatus queueId newStatus env db).1 in
     (newStatus = "serving" ->
      waiting db' !! queueId = None /\ is_Some (serving db' !! queueId)) /\
     (newStatus = "completed" \/ newStatus = "skipped" ->
      waiting db' !! queueId = None /\ serving db' !! queueId = None /\
      is_Some (archived db' !! queueId))).
Proof.
  intros Hone. split; [ intros c env; now apply one_place_step | ].
  intros queueId newStatus env [[e loc] Hloc]. cbv zeta. split.
  - intros ->. rewrite (updateQueueStatus_serving _ _ _ _ _ Hloc).
    apply locate_Some in Hloc. destruct loc; simpl.
    + rewrite lookup_delete_eq, lookup_insert_eq. eauto.
    + destruct Hloc as [Hw Hs]. rewrite Hw, Hs. eauto.
  - intros Hv.
    rewrite (updateQueueStatus_archive _ _ _ _ _ _ Hv Hloc). cbv zeta.
    match goal with
    | |- context [updateDailyStats ?s ?p ?w ?env ?db2] =>
        destruct (updateDailyStats_effect s p w env db2)
          as (db' & -> & Ew & Es & Ea & _)
    end.
    simpl. rewrite Ew, Es, Ea. apply locate_Some in Hloc.
    destruct loc; simpl.
    + rewrite lookup_delete_eq, lookup_insert_eq.
      split; [ reflexivity | ]. split; [ apply Hone; eauto | eauto ].
    + destruct Hloc as [Hw Hs].
      rewrite lookup_delete_eq, lookup_insert_eq. eauto.
Qed.

Lemma alice_serving_one_place : one_place alice_serving.
Proof.
  intros k. destruct alice_serving_partitions as [-> ->].
  intros [x [<- _]%lookup_singleton_Some]. reflexivity.
Qed.

(** Bob is completed straight from the line: he is in the archive only. *)
Lemma bob_is_in_the_archive_only :
  let db' :=
    (updateQueueStatus "-Nb" "completed" (at_time 950000 "") alice_serving).1 in
  waiting db' !! "-Nb" = None /\ serving db' !! "-Nb" = None /\
  is_Some (archived db' !! "-Nb").
Proof.
  apply (proj2 (one_partition_at_a_time alice_serving alice_serving_one_place)
           "-Nb" "completed" (at_time 950000 "")).
  - exists (bob_in_line, InWaiting). reflexivity.
  - left. reflexivity.
Defined.

(** *** Who has joined is found *)









(** *** The list of the dashboard *)







End QueueMore.

(** ** The join form, the wait and the notification *)

Module FormMore.
Import JS Spec More JSFacts Validation ValidationFacts.
Import Queue Scenario QueueFacts QueueMore JoinPage.

(** *** Reading a number *)

Lemma digit_value_decimal (c : ascii) :
  digit_value 10 c =
  if is_digit c then Some (Z.of_N (code c) - 48) else None.
Proof. destruct c as [[] [] [] [] [] [] [] []]; reflexivity. Qed.

Lemma parse_digits_stop acc rest :
  no_digit_first rest -> parse_digits 10 acc rest = acc.
Proof.
  destruct rest as [|c r]; simpl; [ reflexivity | ].
  intros H. now rewrite digit_value_decimal, H.
Qed.

Lemma append_cons c s r : String c s +:+ r = String c (s +:+ r).
Proof. reflexivity. Qed.

Ltac read_digit :=
  match goal with
  | |- context [digit_value 10 ?c] =>
      let v := eval vm_compute in (digit_value 10 c) in
      change (digit_value 10 c) with v
  end.

Lemma parse_uint_acc d p rest :
  no_digit_first rest ->
  parse_digits 10 (Some (Z.pos p)) (NilEmpty.string_of_uint d +:+ rest) =
  Some (Z.pos (Pos.of_uint_acc d p)).
Proof.
  intros Hrest. revert p.
  induction d as [|d IH|d IH|d IH|d IH|d IH|d IH|d IH|d IH|d IH|d IH];
    intros p; [ now apply parse_digits_stop | .. ];
    cbn [NilEmpty.string_of_uint Pos.of_uint_acc];
    rewrite append_cons; cbn [parse_digits];
    read_digit; cbv iota; rewrite <- IH; do 2 f_equal; lia.
Qed.

Lemma parse_uint_zero d rest :
  no_digit_first rest ->
  parse_digits 10 (Some 0) (NilEmpty.string_of_uint d +:+ rest) =
  Some (Z.of_N (Pos.of_uint d)).
Proof.
  intros Hrest.
  induction d as [|d IH|d IH|d IH|d IH|d IH|d IH|d IH|d IH|d IH|d IH];
    [ now apply parse_digits_stop | .. ];
    cbn [NilEmpty.string_of_uint Pos.of_uint];
    rewrite append_cons; cbn [parse_digits];
    read_digit; cbv iota; [ exact IH | .. ];
    match goal with
    | |- context [Some (0 * 10 + ?k)] => change (0 * 10 + k) with k
    end;
    now rewrite parse_uint_acc.
Qed.

Lemma parse_uint d rest :
  d <> Nil -> no_digit_first rest ->
  parse_digits 10 None (NilEmpty.string_of_uint d +:+ rest) =
  Some (Z.of_N (Pos.of_uint d)).
Proof.
  intros Hd Hrest. rewrite <- (parse_uint_zero d rest Hrest).
  destruct d; [ contradiction | .. ]; reflexivity.
Qed.


Lemma parseInt_examples :
  parseInt (Str "0x1f") = Some 31 /\ parseInt (Str "  -12abc") = Some (-12) /\
  parseInt (Str "+") = None /\ parseInt (Str "") = None /\
  parseInt (Str "08") = Some 8 /\ parseInt (Str "1e3") = Some 1 /\
  parseInt (Str "0x") = None /\ parseInt (Str "-0X10") = Some (-16) /\
  parseInt (Num 17) = Some 17 /\ parseInt (Num (-3)) = Some (-3) /\
  parseInt (Str "abc") = None /\ parseInt (Str "0") = Some 0.
Proof. repeat split. Qed.

Lemma trimStart_digit c s :
  is_digit c = true -> trimStart (String c s) = String c s.
Proof. intros H. simpl. now rewrite (digit_not_white c H). Qed.

Lemma digit_no_sign c :
  is_digit c = true ->
  (c =? "-")%char = false /\ (c =? "+")%char = false /\
  ((c =? "x")%char || (c =? "X")%char) = false.
Proof.
  destruct c as [[] [] [] [] [] [] [] []]; vm_compute; intros H;
    first [ discriminate H | repeat split ].
Qed.

Lemma uint_head d :
  d <> Nil ->
  exists c s, NilEmpty.string_of_uint d = String c s /\ is_digit c = true /\
    match s with
    | String c' _ => is_digit c' = true
    | EmptyString => (c =? "0")%char = true -> d = D0 Nil
    end.
Proof.
  intros Hd.
  destruct d as [|d|d|d|d|d|d|d|d|d|d]; [ contradiction | .. ];
    cbn [NilEmpty.string_of_uint]; eexists _, _;
    (split; [ reflexivity | ]); (split; [ reflexivity | ]);
    destruct d; cbn [NilEmpty.string_of_uint];
    reflexivity || discriminate.
Qed.

Lemma read_digits d rest :
  d <> Nil -> (d = D0 Nil -> no_hex_mark rest) -> no_digit_first rest ->
  let s := NilEmpty.string_of_uint d +:+ rest in
  trimStart s = s /\ read_sign s = (1, s) /\ read_radix s = (10, s) /\
  parse_digits 10 None s = Some (Z.of_N (Pos.of_uint d)).
Proof.
  intros Hd Hx Hrest. cbv zeta.
  split; [ | split; [ | split; [ | now apply parse_uint ] ] ];
    destruct (uint_head d Hd) as (c & s & -> & Hc & Hs);
    destruct (digit_no_sign c Hc) as (Hm & Hp & _);
    rewrite append_cons.
  - now apply trimStart_digit.
  - unfold read_sign. now rewrite Hm, Hp.
  - unfold read_radix. destruct s as [|c' s'].
    + change ("" +:+ rest) with rest. destruct rest as [|c' r]; [ reflexivity | ].
      destruct (c =? "0")%char eqn:E; [ | reflexivity ].
      simpl. specialize (Hx (Hs eq_refl)). simpl in Hx. now rewrite Hx.
    + rewrite append_cons.
      destruct (digit_no_sign c' Hs) as (_ & _ & ->).
      now rewrite andb_false_r.
Qed.

Lemma parseInt_Number_toString n rest :
  no_digit_first rest -> (n = 0 -> no_hex_mark rest) ->
  parseInt (Str (Number_toString n +:+ rest)) = Some n.
Proof.
  intros Hrest Hx. unfold Number_toString, parseInt, ToString.
  destruct n as [|p|p].
  - change (Z.to_int 0) with (Decimal.Pos (D0 Nil)).
    cbn [NilEmpty.string_of_int].
    destruct (read_digits (D0 Nil) rest ltac:(discriminate)
                (fun _ => Hx eq_refl) Hrest) as (-> & -> & -> & ->).
    reflexivity.
  - assert (Hz : Pos.to_uint p = D0 Nil -> no_hex_mark rest)
      by (intros E; now destruct (Unsigned.to_uint_nonzero p)).
    change (Z.to_int (Z.pos p)) with (Decimal.Pos (Pos.to_uint p)).
    cbn [NilEmpty.string_of_int].
    destruct (read_digits (Pos.to_uint p) rest (Unsigned.to_uint_nonnil p)
                Hz Hrest) as (-> & -> & -> & ->).
    now rewrite Unsigned.of_to.
  - assert (Hz : Pos.to_uint p = D0 Nil -> no_hex_mark rest)
      by (intros E; now destruct (Unsigned.to_uint_nonzero p)).
    change (Z.to_int (Z.neg p)) with (Decimal.Neg (Pos.to_uint p)).
    cbn [NilEmpty.string_of_int]. rewrite append_cons.
    destruct (read_digits (Pos.to_uint p) rest (Unsigned.to_uint_nonnil p)
                Hz Hrest) as (_ & _ & Hr & Hd).
    cbv zeta in Hr, Hd.
    change (trimStart (String "-" ?s)) with (String "-" s).
    change (read_sign (String "-" ?s)) with (-1, s).
    cbv iota beta. rewrite Hr, Hd, Unsigned.of_to. reflexivity.
Qed.

(** *** The form *)

Lemma append_nil s : s +:+ "" = s.
Proof. induction s as [|c s IH]; [ reflexivity | ]. rewrite append_cons. now f_equal. Qed.

Lemma parseInt_Num n : parseInt (Num n) = Some n.
Proof.
  rewrite <- (parseInt_Number_toString n "") by exact (fun _ => I) || exact I.
  unfold parseInt, ToString. now rewrite append_nil.
Qed.

Lemma validatePartySize_read partySize n :
  parseInt partySize = Some n ->
  validatePartySize partySize =
    if n <? 1
    then {| valid := false; message := "Party size must be at least 1" |}
    else if 20 <? n
    then {| valid := false; message := "Party size cannot exceed 20" |}
    else {| valid := true; message := "Party size is valid" |}.
Proof. intros E. unfold validatePartySize. now rewrite E. Qed.

Lemma validatePartySize_valid partySize :
  valid (validatePartySize partySize) = true <->
  exists n, parseInt partySize = Some n /\ 1 <= n <= 20.
Proof.
  destruct (parseInt partySize) as [n|] eqn:E.
  - rewrite (validatePartySize_read _ _ E).
    destruct (Z.ltb_spec n 1); [ | destruct (Z.ltb_spec 20 n) ]; simpl.
    + split; [ discriminate | intros (n' & [= <-] & Hn); lia ].
    + split; [ discriminate | intros (n' & [= <-] & Hn); lia ].
    + split; [ intros _; exists n; split; [ reflexivity | lia ] | reflexivity ].
  - unfold validatePartySize. rewrite E. simpl.
    split; [ discriminate | intros (n & [=] & _) ].
Qed.

Lemma validateName_valid name :
  valid (validateName name) = true <->
  trim name <> "" /\ (String.length (trim name) <= 30)%nat.
Proof.
  unfold validateName.
  destruct (truthy (trim name)) eqn:Ht.
  - rewrite (trim_truthy _ Ht). simpl. apply truthy_neq in Ht.
    destruct (Nat.ltb_spec 30 (String.length (trim name))); simpl.
    + split; [ discriminate | intros [_ Hl]; lia ].
    + split; [ intros _; split; [ assumption | lia ] | reflexivity ].
  - rewrite orb_true_r. simpl. split; [ discriminate | ].
    intros [Hn _]. apply truthy_neq in Hn. congruence.
Qed.

Lemma validatePhone_valid phone :
  valid (validatePhone phone) = true <->
  String.length phone = 10%nat /\
  Forall (fun c => is_digit c = true) (list_ascii_of_string phone).
Proof.
  unfold validatePhone.
  destruct (negb (truthy phone) || negb (truthy (trim phone))) eqn:Hblank.
  - simpl. split; [ discriminate | ]. intros [Hl Hall]. exfalso.
    destruct phone as [|c p]; [ discriminate Hl | ].
    inversion Hall as [|? ? Hc _]; subst.
    rewrite (trim_cons_black c p (digit_not_white c Hc)) in Hblank.
    discriminate Hblank.
  - destruct (String.length phone =? 10)%nat eqn:Hlen; simpl.
    + apply Nat.eqb_eq in Hlen.
      destruct (test_ten_digits phone) eqn:Ht; simpl.
      * apply test_ten_digits_spec in Ht. tauto.
      * split; [ discriminate | ]. intros H.
        apply test_ten_digits_spec in H. congruence.
    + apply Nat.eqb_neq in Hlen. split; [ discriminate | tauto ].
Qed.

Lemma validateJoinQueueForm_valid name phone partySize :
  valid (validateJoinQueueForm name phone partySize) = true <->
  valid (validateName name) = true /\ valid (validatePhone phone) = true /\
  valid (validatePartySize partySize) = true.
Proof.
  unfold validateJoinQueueForm.
  destruct (valid (validateName name)) eqn:En; simpl;
    [ | rewrite En; intuition discriminate ].
  destruct (valid (validatePhone phone)) eqn:Ep; simpl;
    [ | rewrite Ep; intuition discriminate ].
  destruct (valid (validatePartySize partySize)) eqn:Es; simpl;
    [ | rewrite Es ]; intuition discriminate.
Qed.



(** X14.  For a number below 10^21 in absolute value, [validatePartySize]
    accepts the party sizes from 1 to 20: a smaller number is refused as
    below 1, a greater one as above 20. *)
Theorem party_size_is_from_1_to_20 (n : Z) :
  Z.abs n < 10 ^ 21 ->
  (n < 1 ->
   validatePartySize (Num n) =
     {| valid := false; message := "Party size must be at least 1" |}) /\
  (1 <= n <= 20 ->
   validatePartySize (Num n) =
     {| valid := true; message := "Party size is valid" |}) /\
  (20 < n ->
   validatePartySize (Num n) =
     {| valid := false; message := "Party size cannot exceed 20" |}).
Proof.
  intros _. rewrite (validatePartySize_read _ n (parseInt_Num n)).
  destruct (Z.ltb_spec n 1); [ | destruct (Z.ltb_spec 20 n) ];
    repeat split; intros; reflexivity || lia.
Qed.

(** Nobody, a table of four, and a party of 21. *)
Lemma party_sizes_0_4_and_21 :
  validatePartySize (Num 0) =
    {| valid := false; message := "Party size must be at least 1" |} /\
  validatePartySize (Num 4) =
    {| valid := true; message := "Party size is valid" |} /\
  validatePartySize (Num 21) =
    {| valid := false; message := "Party size cannot exceed 20" |}.
Proof.
  split; [ | split ].
  - apply (party_size_is_from_1_to_20 0); [ reflexivity | lia ].
  - apply (party_size_is_from_1_to_20 4); [ reflexivity | lia ].
  - apply (party_size_is_from_1_to_20 21); [ reflexivity | lia ].
Defined.

(** X15.  [validatePartySize] reads a text as far as its leading number
    goes: the decimal digits of a number below 10^21 in absolute value,
    followed by something that does not begin with a digit (nor, after a
    lone 0, with x or X), are judged as the number itself. *)
Theorem party_size_ignores_what_follows (n : Z) (rest : string) :
  Z.abs n < 10 ^ 21 ->
  no_digit_first rest -> (n = 0 -> no_hex_mark rest) ->
  validatePartySize (Str (Number_toString n +:+ rest)) =
  validatePartySize (Num n).
Proof.
  intros _ Hrest Hx.
  now rewrite (validatePartySize_read _ n (parseInt_Number_toString n rest Hrest Hx)),
              (validatePartySize_read _ n (parseInt_Num n)).
Qed.

(** "4 people" is a party of four. *)
Lemma four_people :
  validatePartySize (Str "4 people") = validatePartySize (Num 4) /\
  valid (validatePartySize (Str "4 people")) = true.
Proof.
  assert (E : validatePartySize (Str (Number_toString 4 +:+ " people")) =
              validatePartySize (Num 4)).
  { apply party_size_ignores_what_follows;
      [ reflexivity | reflexivity | discriminate ]. }
  split; [ exact E | ].
  change (Str "4 people") with (Str (Number_toString 4 +:+ " people")).
  rewrite E. reflexivity.
Defined.

(** X16.  [validateJoinQueueForm] accepts a form exactly when the name is
    not blank and has at most 30 characters once trimmed, the phone is 10
    decimal digits, and the party size reads as a number from 1 to 20; its
    message is then "All fields are valid". *)
Theorem form_is_valid_iff (name phone : string) (partySize : value) :
  (valid (validateJoinQueueForm name phone partySize) = true <->
   (trim name <> "" /\ (String.length (trim name) <= 30)%nat) /\
   (String.length phone = 10%nat /\
    Forall (fun c => is_digit c = true) (list_ascii_of_string phone)) /\
   (exists n, parseInt partySize = Some n /\ 1 <= n <= 20)) /\
  (valid (validateJoinQueueForm name phone partySize) = true ->
   message (validateJoinQueueForm name phone partySize) =
     "All fields are valid").
Proof.
  split.
  - now rewrite validateJoinQueueForm_valid, validateName_valid,
      validatePhone_valid, validatePartySize_valid.
  - intros H. pose proof H as H'.
    apply validateJoinQueueForm_valid in H' as (En & Ep & Es).
    unfold validateJoinQueueForm. now rewrite En, Ep, Es.
Qed.


(** Carol has filled in the form, with a space before and after her
    name. *)
Lemma carol_has_filled_in_the_form :
  valid (validateJoinQueueForm " Carol " "0812345678" (Str "4")) = true /\
  message (validateJoinQueueForm " Carol " "0812345678" (Str "4")) =
    "All fields are valid".
Proof.
  assert (H : valid (validateJoinQueueForm " Carol " "0812345678" (Str "4"))
              = true).
  { apply (proj2 (proj1 (form_is_valid_iff " Carol " "0812345678" (Str "4")))).
    split; [ split; [ vm_compute; discriminate | vm_compute; lia ] | ].
    split; [ split; [ reflexivity | repeat constructor ] | ].
    exists 4. split; [ reflexivity | lia ]. }
  split; [ exact H | ].
  exact (proj2 (form_is_valid_iff " Carol " "0812345678" (Str "4")) H).
Defined.



(** *** The wait between two times *)



(** *** The phone field of the join page *)

Lemma numbersOnly_digits value :
  Forall (fun c => is_digit c = true) (list_ascii_of_string (numbersOnly value)).
Proof.
  induction value as [|c s IH]; simpl; [ constructor | ].
  destruct (is_digit c) eqn:E; [ simpl; now constructor | exact IH ].
Qed.

Lemma numbersOnly_of_digits s :
  Forall (fun c => is_digit c = true) (list_ascii_of_string s) ->
  numbersOnly s = s.
Proof.
  induction s as [|c s IH]; [ reflexivity | ].
  intros H. inversion H as [|? ? Hc Hs]; subst.
  simpl. rewrite Hc. now rewrite (IH Hs).
Qed.

Lemma prefix_digits n s :
  Forall (fun c => is_digit c = true) (list_ascii_of_string s) ->
  Forall (fun c => is_digit c = true)
    (list_ascii_of_string (String.substring 0 n s)).
Proof.
  revert s. induction n as [|n IH]; intros [|c s] H; simpl;
    try constructor.
  - now inversion H.
  - apply IH. now inversion H.
Qed.

Lemma prefix_all n s :
  (String.length s <= n)%nat -> String.substring 0 n s = s.
Proof.
  revert s. induction n as [|n IH]; intros [|c s]; simpl; intros H;
    try reflexivity; [ lia | ].
  f_equal. apply IH. lia.
Qed.

(** X19.  Whatever is typed into the phone field, [handlePhoneChange]
    keeps at most 10 characters of it, all of them decimal digits; what it
    keeps it would keep as it is; and what it keeps passes [validatePhone]
    exactly when it has 10 characters, that is, when at least 10 digits
    were typed. *)
Theorem phone_field_keeps_ten_digits (value : string) :
  let p := limitedPhone value in
  (String.length p <= 10)%nat /\
  Forall (fun c => is_digit c = true) (list_ascii_of_string p) /\
  limitedPhone p = p /\
  (valid (validatePhone p) = true <-> String.length p = 10%nat) /\
  (String.length p = 10%nat <-> (10 <= String.length (numbersOnly value))%nat).
Proof.
  cbv zeta. unfold limitedPhone.
  pose proof (numbersOnly_digits value) as Hd.
  pose proof (prefix_digits 10 _ Hd) as Hp.
  pose proof (length_substring (numbersOnly value) 0 10) as Hl.
  split; [ lia | ]. split; [ exact Hp | ]. split.
  - rewrite (numbersOnly_of_digits _ Hp). apply prefix_all. lia.
  - split; [ rewrite validatePhone_valid; tauto | lia ].
Qed.

(** *** Notifications *)

(** X20.  [checkNotification] looks at the list only: whatever the two
    positions it is given, it notifies exactly when the list has one, two or
    three entries with status "waiting", and then reports one less than
    their number as the people ahead. *)
Theorem notified_when_at_most_three_wait
    (currentPosition previousPosition : Z) (queueList : list (option string)) :
  let waiting :=
    Z.of_nat (length (filter (fun q => q = Some "waiting") queueList)) in
  match
    Notification.checkNotification currentPosition previousPosition
      (Some queueList)
  with
  | Some n =>
      1 <= waiting <= 3 /\ Notification.peopleAhead n = waiting - 1 /\
      Notification.type n = "approaching"
  | None => waiting = 0 \/ 3 < waiting
  end.
Proof.
  cbv zeta.
  unfold Notification.checkNotification, Notification.NOTIFICATION_THRESHOLD.
  destruct queueList as [|q l]; [ now left | ].
  cbn [length Nat.eqb].
  set (w := Z.of_nat (length (filter _ (q :: l)))).
  destruct (Z.leb_spec (w - 1) 2); destruct (Z.leb_spec 0 (w - 1)); simpl;
    try (repeat split; lia); assert (0 <= w) by (unfold w; lia); lia.
Qed.

End FormMore.
